(** * Monotonic chunkwise attention (MoChA): the notebook's four functions

    The notebook [Demo.ipynb] defines [moving_sum], [moving_max],
    [efficient_chunkwise_attention] and [stable_chunkwise_attention] over
    TensorFlow tensors of floats.  This development embeds them over
    nested lists of extended reals: finite values are real numbers with
    exact arithmetic, and the three special values the code introduces or
    can meet (+inf, -inf, NaN) follow the IEEE rules.  Rounding, overflow
    and underflow of the float32 format are outside the model, and zero
    carries no sign. *)

From Stdlib Require Import String Reals Lra Lia ZArith Bool List FinFun.
Import ListNotations.

Open Scope R_scope.

(** ** Scalars *)

Module Num.

Inductive xreal : Type :=
| Fin (r : R)
| PInf
| NInf
| NaN.

Definition zero : xreal := Fin 0.
Definition one : xreal := Fin 1.

Definition inf_of (positive : bool) : xreal :=
  if positive then PInf else NInf.

(** The product of the finite [r] with an infinity of the given sign. *)
Definition scale_inf (r : R) (positive : bool) : xreal :=
  if Rlt_dec 0 r then inf_of positive
  else if Rlt_dec r 0 then inf_of (negb positive)
  else NaN.

Definition xadd (a b : xreal) : xreal :=
  match a, b with
  | NaN, _ | _, NaN => NaN
  | Fin x, Fin y => Fin (x + y)
  | PInf, NInf | NInf, PInf => NaN
  | PInf, _ | _, PInf => PInf
  | NInf, _ | _, NInf => NInf
  end.

Definition xneg (a : xreal) : xreal :=
  match a with
  | Fin x => Fin (- x)
  | PInf => NInf
  | NInf => PInf
  | NaN => NaN
  end.

Definition xsub (a b : xreal) : xreal := xadd a (xneg b).

Definition xmul (a b : xreal) : xreal :=
  match a, b with
  | NaN, _ | _, NaN => NaN
  | Fin x, Fin y => Fin (x * y)
  | Fin x, PInf | PInf, Fin x => scale_inf x true
  | Fin x, NInf | NInf, Fin x => scale_inf x false
  | PInf, PInf | NInf, NInf => PInf
  | PInf, NInf | NInf, PInf => NInf
  end.

Definition xdiv (a b : xreal) : xreal :=
  match a, b with
  | NaN, _ | _, NaN => NaN
  | Fin x, Fin y => if Req_dec_T y 0 then scale_inf x true else Fin (x / y)
  | Fin _, _ => Fin 0
  | PInf, Fin y => if Rlt_dec y 0 then NInf else PInf
  | NInf, Fin y => if Rlt_dec y 0 then PInf else NInf
  | _, _ => NaN
  end.

Definition xexp (a : xreal) : xreal :=
  match a with
  | Fin x => Fin (exp x)
  | PInf => PInf
  | NInf => Fin 0
  | NaN => NaN
  end.

Definition xmax (a b : xreal) : xreal :=
  match a, b with
  | NaN, _ | _, NaN => NaN
  | PInf, _ | _, PInf => PInf
  | NInf, c | c, NInf => c
  | Fin x, Fin y => Fin (Rmax x y)
  end.

Definition xsum (l : list xreal) : xreal := fold_right xadd zero l.

(** The maximum of a list; -inf for the empty one. *)
Definition maximum (l : list xreal) : xreal := fold_right xmax NInf l.

End Num.

Import Num.

(** ** Tensors and the TensorFlow operations the notebook calls

    A tensor is a nested list, one level per axis.  Each operation follows
    the behaviour TensorFlow 1.x documents for the call the notebook makes,
    at the arguments it makes it with: an operation that TensorFlow refuses
    (a negative padding, two shapes that do not broadcast) returns [Raise],
    every other one a value. *)

Module TF.

Definition vec := list xreal.
Definition mat := list vec.
Definition cube := list mat.
Definition tensor4 := list cube.

Inductive tf_error : Type :=
| InvalidArgument (msg : string).

Inductive tf (A : Type) : Type :=
| Ok (a : A)
| Raise (e : tf_error).

Arguments Ok {A} a.
Arguments Raise {A} e.

Definition bind {A B : Type} (m : tf A) (k : A -> tf B) : tf B :=
  match m with
  | Ok a => k a
  | Raise e => Raise e
  end.

Notation "x <- m ;; k" := (bind m (fun x => k))
  (at level 61, m at next level, right associativity).

Definition map2d {A B : Type} (f : A -> B) (x : list (list A)) : list (list B) :=
  map (map f) x.

Definition map3d {A B : Type} (f : A -> B) (x : list (list (list A)))
  : list (list (list B)) :=
  map (map (map f)) x.

(** Static shapes: the size of each axis, read along the first entries.  A
    nested list with an axis of size 0 holds nothing of the axes inside it,
    whose sizes read as 0. *)
Definition shape2 {A : Type} (x : list (list A)) : nat * nat :=
  (length x, length (hd [] x)).

Definition shape3 {A : Type} (x : list (list (list A))) : nat * nat * nat :=
  (length x, length (hd [] x), length (hd [] (hd [] x))).

(** Two axis sizes broadcast against each other when they are equal or one
    of them is 1. *)
Definition dims_agree (a b : nat) : bool :=
  (a =? b)%nat || (a =? 1)%nat || (b =? 1)%nat.

(** Pairing along one axis, an axis of size 1 being repeated. *)
Definition bzip {A B C : Type} (f : A -> B -> C) (xs : list A) (ys : list B)
  : list C :=
  match xs, ys with
  | [x], _ => map (f x) ys
  | _, [y] => map (fun x => f x y) xs
  | _, _ => map (fun p => f (fst p) (snd p)) (combine xs ys)
  end.

Definition shape_error : tf_error :=
  InvalidArgument "Dimensions must be equal".

Definition negative_padding : tf_error :=
  InvalidArgument "Paddings must be non-negative".

(** An elementwise binary operation ([-], [*], [/]) on two 2-D tensors,
    with broadcasting. *)
Definition broadcast2 (f : xreal -> xreal -> xreal) (x y : mat) : tf mat :=
  let '(b1, t1) := shape2 x in
  let '(b2, t2) := shape2 y in
  if dims_agree b1 b2 && dims_agree t1 t2
  then Ok (bzip (bzip f) x y)
  else Raise shape_error.

(** An elementwise binary operation on two 3-D tensors, with broadcasting. *)
Definition broadcast3 (f : xreal -> xreal -> xreal) (x y : cube) : tf cube :=
  let '(b1, t1, c1) := shape3 x in
  let '(b2, t2, c2) := shape3 y in
  if dims_agree b1 b2 && dims_agree t1 t2 && dims_agree c1 c2
  then Ok (bzip (bzip (bzip f)) x y)
  else Raise shape_error.

(** [tf.pad(x, [[0, 0], [before, after]], constant_values=v)]. *)
Definition pad (x : mat) (before after : Z) (v : xreal) : tf mat :=
  if ((before <? 0) || (after <? 0))%Z
  then Raise negative_padding
  else Ok (map (fun row => repeat v (Z.to_nat before) ++ row
                           ++ repeat v (Z.to_nat after)) x).

(** [tf.expand_dims(x, -1)]. *)
Definition expand_dims (x : mat) : cube := map2d (fun v => [v]) x.

(** [x[..., 0]] on a 3-D tensor (the last axis is never empty where the
    notebook takes it). *)
Definition drop_last (x : cube) : mat := map2d (fun c => nth 0 c NaN) x.

(** [tf.ones((a, b, c))]. *)
Definition ones (a b c : Z) : tf cube :=
  if ((a <? 0) || (b <? 0) || (c <? 0))%Z
  then Raise (InvalidArgument "Dimension must be non-negative")
  else Ok (repeat (repeat (repeat one (Z.to_nat c)) (Z.to_nat b)) (Z.to_nat a)).

(** The windows of [k] consecutive entries of [l], one per start position
    (step 1); there is none when [l] is shorter than [k]. *)
Definition windows {A : Type} (k : nat) (l : list A) : list (list A) :=
  map (fun j => firstn k (skipn j l)) (seq 0 (length l + 1 - k)).

(** One output channel of a 1-D convolution at one window: the window is
    [k] positions of input channels, the filter [k] positions of
    (input channel, output channel) weights. *)
Definition conv_at (window : mat) (filters : cube) (o : nat) : xreal :=
  xsum (map (fun p =>
              xsum (map (fun q => xmul (fst q) (nth o (snd q) NaN))
                       (combine (fst p) (snd p))))
           (combine window filters)).

(** [tf.nn.conv1d(x, filters, 1, padding='VALID')]: [x] is
    (batch, width, in_channels), [filters] is
    (filter_width, in_channels, out_channels). *)
Definition conv1d (x filters : cube) : cube :=
  let out_channels := length (hd [] (hd [] filters)) in
  map (fun signal =>
         map (fun window =>
                map (conv_at window filters) (seq 0 out_channels))
             (windows (length filters) signal))
      x.

(** [tf.reshape(x, [shape(x)[0], 1, shape(x)[1], 1])]. *)
Definition reshape_b1t1 (x : mat) : tensor4 :=
  map (fun row => [map (fun v => [v]) row]) x.

(** [x[:, 0, :, 0]] on a 4-D tensor. *)
Definition take_0_0 (x : tensor4) : mat :=
  map (fun img => map (fun c => nth 0 c NaN) (nth 0 img [])) x.

(** The channelwise maximum of a window of pixels. *)
Definition pool_window (window : mat) : vec :=
  map (fun c => maximum (map (fun px => nth c px NaN) window))
      (seq 0 (length (hd [] window))).

(** [tf.nn.max_pool(x, [1, 1, w, 1], [1, 1, 1, 1], 'VALID')]: [x] is
    (batch, height, width, channels) and the window runs along the width. *)
Definition max_pool_width (x : tensor4) (w : Z) : tf tensor4 :=
  if (w <=? 0)%Z
  then Raise (InvalidArgument "Sliding window ksize must be positive")
  else Ok (map (map (fun line => map pool_window (windows (Z.to_nat w) line))) x).

(** [tf.contrib.signal.frame(signal, frame_length, 1, pad_end, pad_value)]
    along the last axis of a 2-D tensor. *)
Definition frame (signal : mat) (frame_length : Z) (pad_end : bool)
    (pad_value : xreal) : cube :=
  let k := Z.to_nat frame_length in
  map (fun row =>
         if pad_end
         then windows k (row ++ repeat pad_value (k - 1))
         else windows k row)
      signal.

(** [tf.reduce_max(x, 1, keepdims=True)]. *)
Definition reduce_max_keep (x : mat) : mat := map (fun row => [maximum row]) x.

(** [tf.reduce_sum(x, 2)]. *)
Definition reduce_sum_last (x : cube) : mat := map2d xsum x.

(** [tf.maximum(x, c)] against a scalar. *)
Definition maximum_scalar (x : mat) (c : xreal) : mat :=
  map2d (fun v => xmax v c) x.

End TF.

Import TF.

(** ** The notebook's functions *)

(** The floor [1e-5] under which the efficient variant clamps. *)
Definition floor : R := 1 / 100000.

Definition clamp_floor : xreal := Fin floor.

Definition moving_sum (x : mat) (back forward : Z) : tf mat :=
  x_padded <- pad x back forward zero ;;
  let x_padded := expand_dims x_padded in
  filters <- ones (back + forward + 1) 1 1 ;;
  let x_sum := conv1d x_padded filters in
  Ok (drop_last x_sum).

(** The first three statements of [efficient_chunkwise_attention]: the
    logits shifted by their row maximum, exponentiated and clamped. *)
Definition efficient_softmax_exp (softmax_logits : mat) : tf mat :=
  softmax_logits <- broadcast2 xsub softmax_logits
                      (reduce_max_keep softmax_logits) ;;
  let softmax_exp := map2d xexp softmax_logits in
  Ok (maximum_scalar softmax_exp clamp_floor).

(** Its [softmax_denominators], the value of the fourth statement. *)
Definition efficient_softmax_denominators (chunk_size : Z) (softmax_logits : mat)
  : tf mat :=
  softmax_exp <- efficient_softmax_exp softmax_logits ;;
  moving_sum softmax_exp (chunk_size - 1) 0.

Definition efficient_chunkwise_attention (chunk_size : Z)
    (emit_probs softmax_logits : mat) : tf mat :=
  softmax_exp <- efficient_softmax_exp softmax_logits ;;
  softmax_denominators <- moving_sum softmax_exp (chunk_size - 1) 0 ;;
  quotient <- broadcast2 xdiv emit_probs softmax_denominators ;;
  summed <- moving_sum quotient 0 (chunk_size - 1) ;;
  broadcast2 xmul softmax_exp summed.

Definition moving_max (x : mat) (w : Z) : tf mat :=
  x <- pad x (w - 1) 0 NInf ;;
  let x := reshape_b1t1 x in
  x <- max_pool_width x w ;;
  Ok (take_0_0 x).

Definition stable_chunkwise_attention (chunk_size : Z)
    (emit_probs softmax_logits : mat) : tf mat :=
  logits_max <- moving_max softmax_logits chunk_size ;;
  padded_logits <- pad softmax_logits (chunk_size - 1) 0 NInf ;;
  let framed_logits := frame padded_logits chunk_size false zero in
  framed_logits <- broadcast3 xsub framed_logits (expand_dims logits_max) ;;
  let softmax_denominators := reduce_sum_last (map3d xexp framed_logits) in
  let framed_denominators := frame softmax_denominators chunk_size true PInf in
  let '(batch_size, seq_len) := shape2 softmax_logits in
  all_ones <- ones (Z.of_nat batch_size) (Z.of_nat seq_len) chunk_size ;;
  copied_logits <- broadcast3 xmul (expand_dims softmax_logits) all_ones ;;
  let framed_max := frame logits_max chunk_size true PInf in
  copied_logits <- broadcast3 xsub copied_logits framed_max ;;
  let softmax_numerators := map3d xexp copied_logits in
  let framed_probs := frame emit_probs chunk_size true zero in
  weighted <- broadcast3 xmul framed_probs softmax_numerators ;;
  terms <- broadcast3 xdiv weighted framed_denominators ;;
  Ok (reduce_sum_last terms).

(** ** Real-valued arrays and the quantities the statements speak of *)

(** A (batch, T) array of real numbers as the tensor the functions take. *)
Definition lift (x : list (list R)) : mat := map2d Fin x.

(** [x] has [b] rows of [t] entries each. *)
Definition rect {A : Type} (b t : nat) (x : list (list A)) : Prop :=
  length x = b /\ Forall (fun row => length row = t) x.

(** [x[i, j]]. *)
Definition at2 (x : list (list R)) (i j : nat) : R := nth j (nth i x []) 0.

(** [x[i, z]] at an integer position, zero outside the row. *)
Definition get2 (x : list (list R)) (i : nat) (z : Z) : R :=
  if ((0 <=? z) && (z <? Z.of_nat (length (nth i x []))))%Z
  then at2 x i (Z.to_nat z)
  else 0.

Definition Rsum (l : list R) : R := fold_right Rplus 0 l.

(** The integers [lo, lo + 1, ..., hi]. *)
Definition zrange (lo hi : Z) : list Z :=
  map (fun k => (lo + Z.of_nat k)%Z) (seq 0 (Z.to_nat (hi - lo + 1))).

(** The sum of [f z] for [z] from [lo] to [hi]. *)
Definition Zsum (lo hi : Z) (f : Z -> R) : R := Rsum (map f (zrange lo hi)).

(** The maximum of a non-empty list of reals. *)
Fixpoint list_max (l : list R) : R :=
  match l with
  | [] => 0
  | [a] => a
  | a :: t => Rmax a (list_max t)
  end.

Definition zip_with {A B C : Type} (f : A -> B -> C) (xs : list A) (ys : list B)
  : list C :=
  map (fun p => f (fst p) (snd p)) (combine xs ys).

(** Elementwise sum of two arrays, and an array scaled by a constant. *)
Definition madd (x y : list (list R)) : list (list R) :=
  zip_with (zip_with Rplus) x y.

Definition mscale (c : R) (x : list (list R)) : list (list R) :=
  map (map (Rmult c)) x.

(** The constant [c_i] added to every logit of row [i]. *)
Definition shift_rows (c : list R) (x : list (list R)) : list (list R) :=
  zip_with (fun ci row => map (fun v => v + ci) row) c x.

(** Lists and arrays given by their entries. *)
Definition tab {A : Type} (n : nat) (g : nat -> A) : list A := map g (seq 0 n).

Definition tab2 {A : Type} (b t : nat) (g : nat -> nat -> A) : list (list A) :=
  tab b (fun i => tab t (g i)).

Definition tab3 {A : Type} (b t c : nat) (g : nat -> nat -> nat -> A)
  : list (list (list A)) :=
  tab b (fun i => tab2 t c (g i)).

(** A row of [t] entries between [b] and [f] copies of [v], by position. *)
Definition padded {A : Type} (b t : nat) (v : A) (g : nat -> A) (p : nat) : A :=
  if (p <? b)%nat then v
  else if (p <? b + t)%nat then g (p - b)%nat
  else v.

(** [g z] inside [0 .. t-1], [v] outside. *)
Definition clip {A : Type} (t : nat) (v : A) (g : nat -> A) (z : Z) : A :=
  if ((0 <=? z) && (z <? Z.of_nat t))%Z then g (Z.to_nat z) else v.

(** Whether the integer [z] is a position of a row of [t] entries. *)
Definition in_row (t : nat) (z : Z) : bool :=
  ((0 <=? z) && (z <? Z.of_nat t))%Z.

(** The maximum of [g] over the positions of [lo .. hi] that lie in a row of
    [t] entries. *)
Definition window_max (t : nat) (g : nat -> R) (lo hi : Z) : R :=
  list_max (map (fun z => g (Z.to_nat z)) (filter (in_row t) (zrange lo hi))).

(** *** The two attention functions entry by entry

    A row of logits [u] and a row of emit probabilities [alpha], both of [t]
    entries, are given by position; [w] is the chunk size. *)

(** The clamped exponential of the efficient variant. *)
Definition eff_exp (t : nat) (u : nat -> R) (j : nat) : R :=
  Rmax (exp (u j - list_max (tab t u))) floor.

(** Its softmax denominator: the clamped exponentials of the chunk ending
    at [k]. *)
Definition eff_den (t : nat) (w : Z) (u : nat -> R) (k : nat) : R :=
  Zsum (Z.of_nat k - (w - 1)) (Z.of_nat k + 0) (clip t 0 (eff_exp t u)).

Definition eff_out (t : nat) (w : Z) (alpha u : nat -> R) (j : nat) : R :=
  eff_exp t u j *
  Zsum (Z.of_nat j - 0) (Z.of_nat j + (w - 1))
       (clip t 0 (fun k => alpha k / eff_den t w u k)).

(** The maximum of the chunk ending at [k], of the stable variant. *)
Definition st_max (t : nat) (w : Z) (u : nat -> R) (k : nat) : R :=
  window_max t u (Z.of_nat k - w + 1) (Z.of_nat k).

Definition st_den (t : nat) (w : Z) (u : nat -> R) (k : nat) : R :=
  Zsum (Z.of_nat k - w + 1) (Z.of_nat k)
       (clip t 0 (fun l => exp (u l - st_max t w u k))).

Definition st_out (t : nat) (w : Z) (alpha u : nat -> R) (j : nat) : R :=
  Zsum (Z.of_nat j) (Z.of_nat j + w - 1)
       (clip t 0 (fun k => alpha k * exp (u j - st_max t w u k) / st_den t w u k)).

(** The chunkwise distribution of the notebook's text,
    [beta_j = sum_{k=j}^{j+w-1} alpha_k exp(u_j) / sum_{l=k-w+1}^{k} exp(u_l)],
    positions outside the row contributing nothing. *)
Definition beta (t : nat) (w : Z) (alpha u : nat -> R) (j : nat) : R :=
  Zsum (Z.of_nat j) (Z.of_nat j + w - 1)
       (clip t 0 (fun k => alpha k * exp (u j) /
                           Zsum (Z.of_nat k - w + 1) (Z.of_nat k)
                                (clip t 0 (fun l => exp (u l))))).

(** [np.allclose(a, b)] with its default tolerances, as the notebook's last
    cell compares the two outputs. *)
Definition allclose (a b : list (list R)) : Prop :=
  forall i j, (i < length a)%nat -> (j < length (nth i a []))%nat ->
    Rabs (at2 a i j - at2 b i j) <= 1 / 100000000 + 1 / 100000 * Rabs (at2 b i j).

(** The size of the axis that results from broadcasting sizes [m] and [n],
    and the position read in an axis of size [n] for position [i] of the
    result. *)
Definition bdim (m n : nat) : nat := if (m =? 1)%nat then n else m.

Definition bidx (n i : nat) : nat := if (n =? 1)%nat then 0%nat else i.

(** *** More of the notebook: parts of the functions and the demonstration cell *)

(** The [softmax_denominators] of [stable_chunkwise_attention]: its
    statements up to that one. *)
Definition stable_softmax_denominators (chunk_size : Z) (softmax_logits : mat)
  : tf mat :=
  logits_max <- moving_max softmax_logits chunk_size ;;
  padded_logits <- pad softmax_logits (chunk_size - 1) 0 NInf ;;
  let framed_logits := frame padded_logits chunk_size false zero in
  framed_logits <- broadcast3 xsub framed_logits (expand_dims logits_max) ;;
  Ok (reduce_sum_last (map3d xexp framed_logits)).

(** [emit_probs_data /= np.sum(emit_probs_data, axis=1, keepdims=True)] of
    the demonstration cell: every row divided by its sum. *)
Definition normalize_rows (x : mat) : tf mat :=
  broadcast2 xdiv x (map (fun row => [xsum row]) x).

(** [x[i, lo:hi] -= c] of the demonstration cell, on a real array: row [i]
    must exist, and the slice stops at the end of the row. *)
Definition subtract_on_slice (x : list (list R)) (i lo hi : nat) (c : R)
  : option (list (list R)) :=
  if (i <? length x)%nat
  then Some (tab (length x) (fun r =>
               let row := nth r x [] in
               if (r =? i)%nat
               then tab (length row) (fun j =>
                      if ((lo <=? j) && (j <? hi))%nat
                      then nth j row 0 - c
                      else nth j row 0)
               else row))
  else None.

(** A logit of a row of [t] entries raised to at least the row maximum plus
    [ln 1e-5]. *)
Definition clipped (t : nat) (u : nat -> R) (j : nat) : R :=
  Rmax (u j) (list_max (tab t u) + ln floor).

(** The logits clipped from below, in every row, at the row maximum plus
    [ln 1e-5]: what the clamp of the efficient variant turns them into. *)
Definition clip_logits (x : list (list R)) : list (list R) :=
  map (fun row => map (fun v => Rmax v (list_max row + ln floor)) row) x.

(** Closes [rect b t x] on a literal array. *)
Ltac solve_rect := split; [reflexivity | repeat constructor].

(** ** Lists given by their entries *)

Lemma tab_length {A : Type} (n : nat) (g : nat -> A) : length (tab n g) = n.
Proof. unfold tab. now rewrite length_map, length_seq. Qed.

Lemma nth_tab {A : Type} (n : nat) (g : nat -> A) (d : A) (i : nat) :
  (i < n)%nat -> nth i (tab n g) d = g i.
Proof.
  intros Hi. unfold tab.
  rewrite (nth_indep _ d (g 0%nat)) by now rewrite length_map, length_seq.
  rewrite map_nth, seq_nth by assumption. reflexivity.
Qed.

Lemma tab_ext {A : Type} (n : nat) (g h : nat -> A) :
  (forall i, (i < n)%nat -> g i = h i) -> tab n g = tab n h.
Proof.
  intros H. unfold tab. apply map_ext_in. intros i Hi.
  apply in_seq in Hi. apply H. lia.
Qed.

Lemma map_tab {A B : Type} (f : A -> B) (n : nat) (g : nat -> A) :
  map f (tab n g) = tab n (fun i => f (g i)).
Proof. unfold tab. now rewrite map_map. Qed.

Lemma list_as_tab {A : Type} (d : A) (l : list A) :
  l = tab (length l) (fun i => nth i l d).
Proof.
  apply (nth_ext _ _ d d).
  - now rewrite tab_length.
  - intros i Hi. now rewrite nth_tab.
Qed.

Lemma list_eq_tab {A : Type} (d : A) (n : nat) (g : nat -> A) (l : list A) :
  length l = n -> (forall i, (i < n)%nat -> nth i l d = g i) -> l = tab n g.
Proof.
  intros Hl H. rewrite (list_as_tab d l), Hl. now apply tab_ext.
Qed.

Lemma tab_S {A : Type} (n : nat) (g : nat -> A) :
  tab (S n) g = g 0%nat :: tab n (fun i => g (S i)).
Proof.
  unfold tab. simpl. f_equal. now rewrite <- seq_shift, map_map.
Qed.

Lemma tab_snoc {A : Type} (n : nat) (g : nat -> A) :
  tab (S n) g = tab n g ++ [g n].
Proof. unfold tab. now rewrite seq_S, map_app. Qed.

Lemma repeat_tab {A : Type} (v : A) (n : nat) : repeat v n = tab n (fun _ => v).
Proof.
  apply (list_eq_tab v).
  - apply repeat_length.
  - intros i _. apply nth_repeat.
Qed.

Lemma combine_tab {A B : Type} (n : nat) (g : nat -> A) (h : nat -> B) :
  combine (tab n g) (tab n h) = tab n (fun i => (g i, h i)).
Proof.
  revert g h. induction n as [|n IH]; intros g h.
  - reflexivity.
  - rewrite !tab_S. simpl. now rewrite IH.
Qed.

Lemma zip_with_tab {A B C : Type} (f : A -> B -> C) (n : nat)
    (g : nat -> A) (h : nat -> B) :
  zip_with f (tab n g) (tab n h) = tab n (fun i => f (g i) (h i)).
Proof. unfold zip_with. now rewrite combine_tab, map_tab. Qed.

Lemma slice_tab {A : Type} (n j k : nat) (g : nat -> A) :
  (j + k <= n)%nat ->
  firstn k (skipn j (tab n g)) = tab k (fun t => g (j + t)%nat).
Proof.
  intros H. apply (list_eq_tab (g 0%nat)).
  - rewrite length_firstn, length_skipn, tab_length. lia.
  - intros i Hi. rewrite nth_firstn.
    destruct (Nat.ltb_spec i k); [|lia].
    rewrite nth_skipn, nth_tab by lia. reflexivity.
Qed.

Lemma windows_tab {A : Type} (k n : nat) (g : nat -> A) :
  windows k (tab n g) = tab (n + 1 - k) (fun j => tab k (fun t => g (j + t)%nat)).
Proof.
  unfold windows. rewrite tab_length. apply tab_ext. intros j Hj.
  apply slice_tab. lia.
Qed.

Lemma pad_row_tab {A : Type} (b t f : nat) (v : A) (g : nat -> A) :
  repeat v b ++ tab t g ++ repeat v f = tab (b + t + f) (padded b t v g).
Proof.
  apply (list_eq_tab v).
  - rewrite !length_app, !repeat_length, tab_length. lia.
  - intros i Hi. unfold padded.
    destruct (Nat.ltb_spec i b).
    + rewrite app_nth1 by (rewrite repeat_length; lia). apply nth_repeat.
    + rewrite app_nth2 by (rewrite repeat_length; lia). rewrite repeat_length.
      destruct (Nat.ltb_spec i (b + t)).
      * rewrite app_nth1 by (rewrite tab_length; lia). apply nth_tab. lia.
      * rewrite app_nth2 by (rewrite tab_length; lia). apply nth_repeat.
Qed.

Lemma tab2_ext {A : Type} (b t : nat) (g h : nat -> nat -> A) :
  (forall i j, (i < b)%nat -> (j < t)%nat -> g i j = h i j) ->
  tab2 b t g = tab2 b t h.
Proof.
  intros H. apply tab_ext. intros i Hi. apply tab_ext. intros j Hj. now apply H.
Qed.

Lemma rect_as_tab2 {A : Type} (d : A) (b t : nat) (x : list (list A)) :
  rect b t x -> x = tab2 b t (fun i j => nth j (nth i x []) d).
Proof.
  intros [Hb Ht]. unfold tab2. apply (list_eq_tab []); [assumption|].
  intros i Hi. apply (list_eq_tab d); [|reflexivity].
  rewrite Forall_forall in Ht. apply Ht, nth_In. lia.
Qed.

Lemma rect_tab2 {A : Type} (b t : nat) (g : nat -> nat -> A) :
  rect b t (tab2 b t g).
Proof.
  split; [apply tab_length|]. apply Forall_forall. intros row Hrow.
  unfold tab2, tab in Hrow. apply in_map_iff in Hrow.
  destruct Hrow as [i [<- _]]. now rewrite length_map, length_seq.
Qed.

(** ** Scalar facts *)

Lemma mul_one_r (v : xreal) : xmul v one = v.
Proof.
  destruct v as [r| | |]; simpl; try reflexivity.
  - now rewrite Rmult_1_r.
  - unfold scale_inf. destruct (Rlt_dec 0 1); [reflexivity|lra].
  - unfold scale_inf. destruct (Rlt_dec 0 1); [reflexivity|lra].
Qed.

Lemma add_zero_r (v : xreal) : xadd v zero = v.
Proof. destruct v as [r| | |]; simpl; try reflexivity. now rewrite Rplus_0_r. Qed.

Lemma sum_Fin (l : list R) : xsum (map Fin l) = Fin (Rsum l).
Proof.
  induction l as [|a l IH]; [reflexivity|].
  change (xsum (map Fin (a :: l))) with (xadd (Fin a) (xsum (map Fin l))).
  now rewrite IH.
Qed.

Lemma sum_tab_Fin (n : nat) (h : nat -> R) :
  xsum (tab n (fun t => Fin (h t))) = Fin (Rsum (tab n h)).
Proof. rewrite <- sum_Fin, map_tab. reflexivity. Qed.

(** ** [moving_sum] by entries *)

Lemma pad_tab2 (b t : nat) (x : nat -> nat -> xreal) (before after : Z) (v : xreal) :
  (0 <= before)%Z -> (0 <= after)%Z ->
  pad (tab2 b t x) before after v =
  Ok (tab2 b (Z.to_nat before + t + Z.to_nat after)
        (fun i => padded (Z.to_nat before) t v (x i))).
Proof.
  intros Hb Ha. unfold pad.
  destruct (Z.ltb_spec before 0); [lia|].
  destruct (Z.ltb_spec after 0); [lia|]. simpl.
  f_equal. unfold tab2. rewrite map_tab. apply tab_ext. intros i _.
  apply pad_row_tab.
Qed.

Lemma conv_at_ones (k : nat) (h : nat -> xreal) :
  conv_at (tab k (fun t => [h t])) (repeat [[one]] k) 0 = xsum (tab k h).
Proof.
  unfold conv_at. rewrite repeat_tab, combine_tab, map_tab. f_equal.
  apply tab_ext. intros t _. simpl.
  now rewrite mul_one_r, add_zero_r.
Qed.

Lemma conv1d_ones (b l k : nat) (x : nat -> nat -> xreal) :
  conv1d (expand_dims (tab2 b l x)) (repeat (repeat (repeat one 1) 1) (S k)) =
  tab3 b (l + 1 - S k) 1 (fun i j _ => xsum (tab (S k) (fun s => x i (j + s)%nat))).
Proof.
  unfold conv1d, expand_dims, map2d, tab3, tab2.
  rewrite repeat_length, !map_tab.
  cbn [repeat hd length].
  apply tab_ext. intros i _.
  rewrite map_tab, windows_tab, map_tab. apply tab_ext. intros j _.
  cbn [tab seq map]. f_equal.
  change ([[one]] :: repeat [[one]] k) with (repeat [[one]] (S k)).
  apply (conv_at_ones (S k) (fun s => x i (j + s)%nat)).
Qed.

Lemma moving_sum_tab2 (b t : nat) (x : nat -> nat -> xreal) (back forward : Z) :
  (0 <= back)%Z -> (0 <= forward)%Z ->
  moving_sum (tab2 b t x) back forward =
  Ok (tab2 b t (fun i j =>
        xsum (tab (Z.to_nat back + Z.to_nat forward + 1)
               (fun s => padded (Z.to_nat back) t zero (x i) (j + s)%nat)))).
Proof.
  intros Hb Hf. unfold moving_sum.
  rewrite pad_tab2 by assumption. simpl.
  unfold ones.
  destruct (Z.ltb_spec (back + forward + 1) 0); [lia|]. simpl.
  replace (Z.to_nat (back + forward + 1))
    with (S (Z.to_nat back + Z.to_nat forward)) by lia.
  replace (Z.to_nat back + Z.to_nat forward + 1)%nat
    with (S (Z.to_nat back + Z.to_nat forward)) by lia.
  set (nb := Z.to_nat back). set (nf := Z.to_nat forward).
  f_equal.
  change (Pos.to_nat 1) with 1%nat.
  rewrite conv1d_ones.
  replace (nb + t + nf + 1 - S (nb + nf))%nat with t by lia.
  unfold drop_last, map2d, tab3, tab2.
  rewrite map_tab. apply tab_ext. intros i _.
  rewrite map_tab. apply tab_ext. intros j _. reflexivity.
Qed.

Lemma zrange_tab (lo hi : Z) :
  zrange lo hi = tab (Z.to_nat (hi - lo + 1)) (fun k => (lo + Z.of_nat k)%Z).
Proof. reflexivity. Qed.

Lemma Zsum_tab (lo hi : Z) (f : Z -> R) :
  Zsum lo hi f = Rsum (tab (Z.to_nat (hi - lo + 1)) (fun k => f (lo + Z.of_nat k)%Z)).
Proof. unfold Zsum. now rewrite zrange_tab, map_tab. Qed.

Lemma padded_clip {A : Type} (b t : nat) (v : A) (g : nat -> A) (p : nat) :
  padded b t v g p = clip t v g (Z.of_nat p - Z.of_nat b).
Proof.
  unfold padded, clip.
  destruct (Nat.ltb_spec p b).
  - destruct (Z.leb_spec 0 (Z.of_nat p - Z.of_nat b)); [lia|reflexivity].
  - destruct (Z.leb_spec 0 (Z.of_nat p - Z.of_nat b)); [|lia].
    destruct (Nat.ltb_spec p (b + t));
      destruct (Z.ltb_spec (Z.of_nat p - Z.of_nat b) (Z.of_nat t)); try lia;
      simpl; [|reflexivity].
    f_equal. lia.
Qed.

(** On a real array the moving sum is the window sum of the claim. *)
Lemma moving_sum_real (b t : nat) (x : nat -> nat -> R) (back forward : Z) :
  (0 <= back)%Z -> (0 <= forward)%Z ->
  moving_sum (tab2 b t (fun i j => Fin (x i j))) back forward =
  Ok (tab2 b t (fun i j =>
        Fin (Zsum (Z.of_nat j - back) (Z.of_nat j + forward) (clip t 0 (x i))))).
Proof.
  intros Hb Hf. rewrite moving_sum_tab2 by assumption. f_equal.
  apply tab_ext. intros i _. apply tab_ext. intros j _.
  rewrite Zsum_tab.
  replace (Z.to_nat (Z.of_nat j + forward - (Z.of_nat j - back) + 1))
    with (Z.to_nat back + Z.to_nat forward + 1)%nat by lia.
  rewrite <- sum_tab_Fin. f_equal. apply tab_ext. intros s _.
  rewrite padded_clip.
  replace (Z.of_nat (j + s) - Z.of_nat (Z.to_nat back))%Z
    with (Z.of_nat j - back + Z.of_nat s)%Z by lia.
  unfold clip. now destruct (_ && _).
Qed.

(** ** Sums over integer ranges *)

Lemma In_zrange (lo hi z : Z) : In z (zrange lo hi) <-> (lo <= z <= hi)%Z.
Proof.
  unfold zrange. rewrite in_map_iff. split.
  - intros [k [<- Hk]]. apply in_seq in Hk. lia.
  - intros H. exists (Z.to_nat (z - lo)). split; [lia|]. apply in_seq. lia.
Qed.

Lemma Rsum_map_ext {A : Type} (f g : A -> R) (l : list A) :
  (forall a, In a l -> f a = g a) -> Rsum (map f l) = Rsum (map g l).
Proof. intros H. f_equal. now apply map_ext_in. Qed.

Lemma Rsum_map_plus {A : Type} (f g : A -> R) (l : list A) :
  Rsum (map (fun a => f a + g a) l) = Rsum (map f l) + Rsum (map g l).
Proof. induction l as [|a l IH]; simpl; [lra|]. rewrite IH. lra. Qed.

Lemma Rsum_map_scal {A : Type} (c : R) (f : A -> R) (l : list A) :
  Rsum (map (fun a => c * f a) l) = c * Rsum (map f l).
Proof. induction l as [|a l IH]; simpl; [lra|]. rewrite IH. lra. Qed.

Lemma Rsum_map_le {A : Type} (f g : A -> R) (l : list A) :
  (forall a, In a l -> f a <= g a) -> Rsum (map f l) <= Rsum (map g l).
Proof.
  induction l as [|a l IH]; intros H; simpl; [lra|].
  assert (f a <= g a) by (apply H; now left).
  assert (Rsum (map f l) <= Rsum (map g l)) by (apply IH; intros; apply H; now right).
  lra.
Qed.

Lemma Rsum_map_nonneg {A : Type} (f : A -> R) (l : list A) :
  (forall a, In a l -> 0 <= f a) -> 0 <= Rsum (map f l).
Proof.
  induction l as [|a l IH]; intros H; simpl; [lra|].
  assert (0 <= f a) by (apply H; now left).
  assert (0 <= Rsum (map f l)) by (apply IH; intros; apply H; now right).
  lra.
Qed.

Lemma Zsum_ext (lo hi : Z) (f g : Z -> R) :
  (forall z, (lo <= z <= hi)%Z -> f z = g z) -> Zsum lo hi f = Zsum lo hi g.
Proof. intros H. apply Rsum_map_ext. intros z Hz. now apply H, In_zrange. Qed.

Lemma Zsum_plus (lo hi : Z) (f g : Z -> R) :
  Zsum lo hi (fun z => f z + g z) = Zsum lo hi f + Zsum lo hi g.
Proof. apply Rsum_map_plus. Qed.

Lemma Zsum_scal (lo hi : Z) (c : R) (f : Z -> R) :
  Zsum lo hi (fun z => c * f z) = c * Zsum lo hi f.
Proof. apply Rsum_map_scal. Qed.

Lemma Zsum_le (lo hi : Z) (f g : Z -> R) :
  (forall z, (lo <= z <= hi)%Z -> f z <= g z) -> Zsum lo hi f <= Zsum lo hi g.
Proof. intros H. apply Rsum_map_le. intros z Hz. now apply H, In_zrange. Qed.

Lemma Zsum_nonneg (lo hi : Z) (f : Z -> R) :
  (forall z, (lo <= z <= hi)%Z -> 0 <= f z) -> 0 <= Zsum lo hi f.
Proof. intros H. apply Rsum_map_nonneg. intros z Hz. now apply H, In_zrange. Qed.

Lemma Zsum_single (z : Z) (f : Z -> R) : Zsum z z f = f z.
Proof.
  rewrite Zsum_tab. replace (Z.to_nat (z - z + 1)) with 1%nat by lia.
  cbn [tab seq map Rsum fold_right]. rewrite Z.add_0_r. lra.
Qed.

(** ** Real arrays as tensors *)

Lemma lift_tab2 (b t : nat) (g : nat -> nat -> R) :
  lift (tab2 b t g) = tab2 b t (fun i j => Fin (g i j)).
Proof.
  unfold lift, map2d, tab2. rewrite map_tab. apply tab_ext. intros i _.
  now rewrite map_tab.
Qed.

Lemma lift_rect (b t : nat) (x : list (list R)) :
  rect b t x -> lift x = tab2 b t (fun i j => Fin (at2 x i j)).
Proof. intros H. rewrite (rect_as_tab2 0 b t x H) at 1. apply lift_tab2. Qed.

Lemma at2_tab2 (b t : nat) (g : nat -> nat -> R) (i j : nat) :
  (i < b)%nat -> (j < t)%nat -> at2 (tab2 b t g) i j = g i j.
Proof.
  intros Hi Hj. unfold at2, tab2. now rewrite nth_tab, nth_tab.
Qed.

Lemma rect_row_length {A : Type} (b t : nat) (x : list (list A)) (i : nat) :
  rect b t x -> (i < b)%nat -> length (nth i x []) = t.
Proof.
  intros [Hb Ht] Hi. rewrite Forall_forall in Ht. apply Ht, nth_In. lia.
Qed.

Lemma get2_clip (b t : nat) (x : list (list R)) (i : nat) (z : Z) :
  rect b t x -> (i < b)%nat -> get2 x i z = clip t 0 (at2 x i) z.
Proof.
  intros H Hi. unfold get2, clip. now rewrite (rect_row_length b t x i H Hi).
Qed.

(** A returned tensor [lift y] determines the real array [y]. *)
Lemma lift_inj (x y : list (list R)) : lift x = lift y -> x = y.
Proof.
  unfold lift, map2d. revert y.
  induction x as [|r x IH]; intros [|s y] H; try discriminate; [reflexivity|].
  simpl in H. injection H as Hr Hx. f_equal; [|now apply IH].
  clear - Hr. revert s Hr.
  induction r as [|a r IHr]; intros [|c s] H; try discriminate; [reflexivity|].
  simpl in H. injection H as -> Hr. f_equal. now apply IHr.
Qed.

Lemma moving_sum_lift (b t : nat) (x : list (list R)) (back forward : Z) :
  rect b t x -> (0 <= back)%Z -> (0 <= forward)%Z ->
  moving_sum (lift x) back forward =
  Ok (lift (tab2 b t (fun i j =>
        Zsum (Z.of_nat j - back) (Z.of_nat j + forward) (clip t 0 (at2 x i))))).
Proof.
  intros Hx Hb Hf. rewrite (lift_rect b t x Hx), lift_tab2.
  now apply moving_sum_real.
Qed.

(** ** Claims about [moving_sum] *)

(** C3.  For a (batch, T) array [x] and non-negative [back] and [forward],
    [moving_sum x back forward] returns an array of the same shape whose entry
    [i, j] is the sum of [x[i, j-back .. j+forward]], positions outside the
    row counting as zero; and [moving_sum x 0 0] returns [x]. *)
Theorem moving_sum_window_sum (b t : nat) (x : list (list R)) (back forward : Z) :
  rect b t x -> (0 <= back)%Z -> (0 <= forward)%Z ->
  (exists y,
      moving_sum (lift x) back forward = Ok (lift y) /\
      rect b t y /\
      forall i j, (i < b)%nat -> (j < t)%nat ->
        at2 y i j = Zsum (Z.of_nat j - back) (Z.of_nat j + forward) (get2 x i)) /\
  moving_sum (lift x) 0 0 = Ok (lift x).
Proof.
  intros Hx Hb Hf. split.
  - eexists. split; [now apply (moving_sum_lift b t)|]. split; [apply rect_tab2|].
    intros i j Hi Hj. rewrite at2_tab2 by assumption.
    apply Zsum_ext. intros z _. symmetry. now apply (get2_clip b).
  - rewrite (moving_sum_lift b t) by (assumption || lia). f_equal. f_equal.
    symmetry. etransitivity; [apply (rect_as_tab2 0 b t x Hx)|].
    apply tab_ext. intros i _. apply tab_ext. intros j Hj.
    rewrite Z.sub_0_r, Z.add_0_r, Zsum_single. unfold clip, at2.
    destruct (Z.leb_spec 0 (Z.of_nat j)); [|lia].
    destruct (Z.ltb_spec (Z.of_nat j) (Z.of_nat t)); [|lia].
    simpl. now rewrite Nat2Z.id.
Qed.

Lemma moving_sum_window_sum_witness :
  (exists y,
      moving_sum (lift [[1; 2; 3]]) 1 1 = Ok (lift y) /\
      rect 1 3 y /\
      forall i j, (i < 1)%nat -> (j < 3)%nat ->
        at2 y i j = Zsum (Z.of_nat j - 1) (Z.of_nat j + 1) (get2 [[1; 2; 3]] i)) /\
  moving_sum (lift [[1; 2; 3]]) 0 0 = Ok (lift [[1; 2; 3]]).
Proof.
  apply (moving_sum_window_sum 1 3 [[1; 2; 3]] 1 1).
  - solve_rect.
  - lia.
  - lia.
Defined.

Lemma zip_with_tab2 {A B C : Type} (f : A -> B -> C) (b t : nat)
    (g : nat -> nat -> A) (h : nat -> nat -> B) :
  zip_with (zip_with f) (tab2 b t g) (tab2 b t h) =
  tab2 b t (fun i j => f (g i j) (h i j)).
Proof.
  unfold tab2. rewrite zip_with_tab. apply tab_ext. intros i _.
  apply zip_with_tab.
Qed.

Lemma madd_rect (b t : nat) (x y : list (list R)) :
  rect b t x -> rect b t y ->
  madd x y = tab2 b t (fun i j => at2 x i j + at2 y i j).
Proof.
  intros Hx Hy. unfold madd.
  transitivity (zip_with (zip_with Rplus) (tab2 b t (at2 x)) (tab2 b t (at2 y))).
  - f_equal; now apply rect_as_tab2.
  - apply zip_with_tab2.
Qed.

Lemma mscale_rect (b t : nat) (c : R) (x : list (list R)) :
  rect b t x -> mscale c x = tab2 b t (fun i j => c * at2 x i j).
Proof.
  intros Hx. unfold mscale.
  transitivity (map (map (Rmult c)) (tab2 b t (at2 x))).
  - f_equal. now apply rect_as_tab2.
  - unfold tab2. rewrite map_tab. apply tab_ext. intros i _. apply map_tab.
Qed.

Lemma clip_plus (t : nat) (g h : nat -> R) (z : Z) :
  clip t 0 (fun j => g j + h j) z = clip t 0 g z + clip t 0 h z.
Proof. unfold clip. destruct (_ && _); lra. Qed.

Lemma clip_scal (t : nat) (c : R) (g : nat -> R) (z : Z) :
  clip t 0 (fun j => c * g j) z = c * clip t 0 g z.
Proof. unfold clip. destruct (_ && _); lra. Qed.

(** C10.  [moving_sum] is linear in its array argument: on same-shape arrays
    [x] and [y], a scalar [c] and non-negative [back] and [forward], the
    moving sum of [x + y] is the sum of the moving sums and the moving sum of
    [c * x] is [c] times the moving sum of [x]. *)
Theorem moving_sum_linear (b t : nat) (x y : list (list R)) (c : R)
    (back forward : Z) :
  rect b t x -> rect b t y -> (0 <= back)%Z -> (0 <= forward)%Z ->
  exists sx sy,
    moving_sum (lift x) back forward = Ok (lift sx) /\
    moving_sum (lift y) back forward = Ok (lift sy) /\
    moving_sum (lift (madd x y)) back forward = Ok (lift (madd sx sy)) /\
    moving_sum (lift (mscale c x)) back forward = Ok (lift (mscale c sx)).
Proof.
  intros Hx Hy Hb Hf.
  eexists. eexists.
  split; [now apply (moving_sum_lift b t)|].
  split; [now apply (moving_sum_lift b t)|].
  split.
  - rewrite (madd_rect b t x y Hx Hy), lift_tab2, moving_sum_real by assumption.
    rewrite (madd_rect b t) by apply rect_tab2. rewrite lift_tab2.
    f_equal. apply tab_ext. intros i Hi. apply tab_ext. intros j Hj.
    rewrite !at2_tab2 by assumption. rewrite <- Zsum_plus. f_equal.
    apply Zsum_ext. intros z _. apply clip_plus.
  - rewrite (mscale_rect b t c x Hx), lift_tab2, moving_sum_real by assumption.
    rewrite (mscale_rect b t) by apply rect_tab2. rewrite lift_tab2.
    f_equal. apply tab_ext. intros i Hi. apply tab_ext. intros j Hj.
    rewrite !at2_tab2 by assumption. rewrite <- Zsum_scal. f_equal.
    apply Zsum_ext. intros z _. apply clip_scal.
Qed.

Lemma moving_sum_linear_witness :
  exists sx sy,
    moving_sum (lift [[1; 2]]) 1 0 = Ok (lift sx) /\
    moving_sum (lift [[3; 5]]) 1 0 = Ok (lift sy) /\
    moving_sum (lift (madd [[1; 2]] [[3; 5]])) 1 0 = Ok (lift (madd sx sy)) /\
    moving_sum (lift (mscale 2 [[1; 2]])) 1 0 = Ok (lift (mscale 2 sx)).
Proof.
  apply (moving_sum_linear 1 2 [[1; 2]] [[3; 5]] 2 1 0).
  - solve_rect.
  - solve_rect.
  - lia.
  - lia.
Defined.

(** ** [moving_max] by entries *)

Lemma pool_window_single (k : nat) (h : nat -> xreal) :
  pool_window (tab (S k) (fun s => [h s])) = [maximum (tab (S k) h)].
Proof.
  unfold pool_window.
  replace (hd [] (tab (S k) (fun s => [h s]))) with [h 0%nat]
    by now rewrite tab_S.
  cbn [hd length seq map]. now rewrite map_tab.
Qed.

Lemma moving_max_tab2 (b t : nat) (x : nat -> nat -> xreal) (w : Z) :
  (1 <= w)%Z ->
  moving_max (tab2 b t x) w =
  Ok (tab2 b t (fun i j =>
        maximum (tab (Z.to_nat w)
                   (fun s => padded (Z.to_nat w - 1) t NInf (x i) (j + s)%nat)))).
Proof.
  intros Hw. unfold moving_max.
  rewrite pad_tab2 by lia. simpl.
  unfold max_pool_width. destruct (Z.leb_spec w 0); [lia|]. simpl.
  f_equal. unfold take_0_0, reshape_b1t1, tab2.
  rewrite !map_tab. apply tab_ext. intros i _.
  cbn [map nth]. rewrite map_tab, windows_tab, !map_tab.
  match goal with
  | |- tab ?n _ = _ => replace n with t by lia
  end.
  apply tab_ext. intros j _.
  replace (Z.to_nat (w - 1)) with (Z.to_nat w - 1)%nat by lia.
  destruct (Z.to_nat w) as [|k] eqn:Ek; [lia|].
  now rewrite pool_window_single.
Qed.

Lemma xmax_NInf_l (c : xreal) : xmax NInf c = c.
Proof. now destruct c. Qed.

Lemma clip_in_row {A : Type} (t : nat) (v : A) (g : nat -> A) (z : Z) :
  clip t v g z = if in_row t z then g (Z.to_nat z) else v.
Proof. reflexivity. Qed.

Lemma maximum_clip (t : nat) (g : nat -> R) (zs : list Z) :
  maximum (map (clip t NInf (fun k => Fin (g k))) zs) =
  match filter (in_row t) zs with
  | [] => NInf
  | l => Fin (list_max (map (fun z => g (Z.to_nat z)) l))
  end.
Proof.
  induction zs as [|z zs IH]; [reflexivity|].
  cbn [map filter]. rewrite clip_in_row.
  unfold maximum in *. cbn [fold_right]. rewrite IH.
  destruct (in_row t z).
  - destruct (filter (in_row t) zs); reflexivity.
  - apply xmax_NInf_l.
Qed.

Lemma list_max_In (l : list R) : l <> [] -> In (list_max l) l.
Proof.
  induction l as [|a l IH]; [congruence|]. intros _.
  destruct l as [|c l]; [now left|].
  change (list_max (a :: c :: l)) with (Rmax a (list_max (c :: l))).
  unfold Rmax. destruct (Rle_dec a (list_max (c :: l))).
  - right. apply IH. discriminate.
  - now left.
Qed.

Lemma list_max_ge (l : list R) (a : R) : In a l -> a <= list_max l.
Proof.
  induction l as [|c l IH]; [intros []|]. intros H.
  destruct l as [|c' l].
  - destruct H as [-> | []]. simpl. lra.
  - change (list_max (c :: c' :: l)) with (Rmax c (list_max (c' :: l))).
    destruct H as [-> | H].
    + apply Rmax_l.
    + eapply Rle_trans; [apply IH, H|apply Rmax_r].
Qed.

Lemma moving_max_real (b t : nat) (x : nat -> nat -> R) (w : Z) :
  (1 <= w)%Z ->
  moving_max (tab2 b t (fun i j => Fin (x i j))) w =
  Ok (tab2 b t (fun i j =>
        Fin (window_max t (x i) (Z.of_nat j - w + 1) (Z.of_nat j)))).
Proof.
  intros Hw. rewrite moving_max_tab2 by assumption. f_equal.
  apply tab_ext. intros i _. apply tab_ext. intros j Hj.
  transitivity (maximum (map (clip t NInf (fun k => Fin (x i k)))
                           (zrange (Z.of_nat j - w + 1) (Z.of_nat j)))).
  - rewrite zrange_tab, map_tab.
    replace (Z.to_nat (Z.of_nat j - (Z.of_nat j - w + 1) + 1)) with (Z.to_nat w) by lia.
    f_equal. apply tab_ext. intros s _. rewrite padded_clip. f_equal. lia.
  - rewrite maximum_clip. unfold window_max.
    destruct (filter (in_row t) (zrange (Z.of_nat j - w + 1) (Z.of_nat j))) eqn:E;
      [|reflexivity].
    exfalso.
    assert (Hin : In (Z.of_nat j) (filter (in_row t) (zrange (Z.of_nat j - w + 1) (Z.of_nat j)))).
    { apply filter_In. split; [apply In_zrange; lia|].
      unfold in_row. apply andb_true_intro. split; [apply Z.leb_le|apply Z.ltb_lt]; lia. }
    rewrite E in Hin. exact Hin.
Qed.

Lemma in_row_iff (t : nat) (z : Z) :
  in_row t z = true <-> (0 <= z < Z.of_nat t)%Z.
Proof.
  unfold in_row. rewrite andb_true_iff, Z.leb_le, Z.ltb_lt. reflexivity.
Qed.

Lemma window_max_ge (t : nat) (g : nat -> R) (lo hi z : Z) :
  (lo <= z <= hi)%Z -> (0 <= z < Z.of_nat t)%Z ->
  g (Z.to_nat z) <= window_max t g lo hi.
Proof.
  intros Hz Hr. unfold window_max. apply list_max_ge.
  apply in_map_iff. exists z. split; [reflexivity|].
  apply filter_In. split; [now apply In_zrange|now apply in_row_iff].
Qed.

Lemma window_max_attained (t : nat) (g : nat -> R) (lo hi z0 : Z) :
  (lo <= z0 <= hi)%Z -> (0 <= z0 < Z.of_nat t)%Z ->
  exists z, (lo <= z <= hi)%Z /\ (0 <= z < Z.of_nat t)%Z /\
            window_max t g lo hi = g (Z.to_nat z).
Proof.
  intros Hz Hr. unfold window_max.
  set (l := filter (in_row t) (zrange lo hi)).
  assert (Hne : map (fun z => g (Z.to_nat z)) l <> []).
  { assert (Hin : In z0 l)
      by (apply filter_In; split; [now apply In_zrange|now apply in_row_iff]).
    destruct l; [destruct Hin|discriminate]. }
  apply list_max_In, in_map_iff in Hne. destruct Hne as [z [Hz' Hin]].
  apply filter_In in Hin. destruct Hin as [Hin Hrow].
  exists z. split; [now apply In_zrange|]. split; [now apply in_row_iff|].
  now symmetry.
Qed.

Lemma window_max_single (t : nat) (g : nat -> R) (j : nat) :
  (j < t)%nat -> window_max t g (Z.of_nat j) (Z.of_nat j) = g j.
Proof.
  intros Hj. unfold window_max. rewrite zrange_tab.
  replace (Z.to_nat (Z.of_nat j - Z.of_nat j + 1)) with 1%nat by lia.
  cbn [tab seq map filter]. rewrite Z.add_0_r.
  replace (in_row t (Z.of_nat j)) with true by (symmetry; apply in_row_iff; lia).
  cbn [map list_max]. now rewrite Nat2Z.id.
Qed.

Lemma moving_max_lift (b t : nat) (x : list (list R)) (w : Z) :
  rect b t x -> (1 <= w)%Z ->
  moving_max (lift x) w =
  Ok (lift (tab2 b t (fun i j =>
        window_max t (at2 x i) (Z.of_nat j - w + 1) (Z.of_nat j)))).
Proof.
  intros Hx Hw. rewrite (lift_rect b t x Hx), lift_tab2.
  now apply moving_max_real.
Qed.

(** ** Claims about [moving_max] *)

(** C4.  For a (batch, T) array [x] and a positive [w], [moving_max x w]
    returns an array of the same shape whose entry [i, j] is the maximum of
    [x[i, j-w+1 .. j]] over the positions that lie inside the row: it bounds
    every such entry and is one of them; and [moving_max x 1] returns [x]. *)
Theorem moving_max_window_max (b t : nat) (x : list (list R)) (w : Z) :
  rect b t x -> (1 <= w)%Z ->
  (exists y,
      moving_max (lift x) w = Ok (lift y) /\
      rect b t y /\
      forall i j, (i < b)%nat -> (j < t)%nat ->
        (forall z, (Z.of_nat j - w + 1 <= z <= Z.of_nat j)%Z ->
                   (0 <= z < Z.of_nat t)%Z ->
                   at2 x i (Z.to_nat z) <= at2 y i j) /\
        (exists z, (Z.of_nat j - w + 1 <= z <= Z.of_nat j)%Z /\
                   (0 <= z < Z.of_nat t)%Z /\
                   at2 y i j = at2 x i (Z.to_nat z))) /\
  moving_max (lift x) 1 = Ok (lift x).
Proof.
  intros Hx Hw. split.
  - eexists. split; [now apply (moving_max_lift b t)|]. split; [apply rect_tab2|].
    intros i j Hi Hj. rewrite at2_tab2 by assumption. split.
    + intros z Hz Hr. now apply window_max_ge.
    + apply (window_max_attained t (at2 x i) _ _ (Z.of_nat j)); lia.
  - rewrite (moving_max_lift b t) by (assumption || lia). f_equal. f_equal.
    symmetry. etransitivity; [apply (rect_as_tab2 0 b t x Hx)|].
    apply tab_ext. intros i _. apply tab_ext. intros j Hj.
    replace (Z.of_nat j - 1 + 1)%Z with (Z.of_nat j) by lia.
    now rewrite window_max_single.
Qed.

Lemma moving_max_window_max_witness :
  (exists y,
      moving_max (lift [[1; 5; 2]]) 2 = Ok (lift y) /\
      rect 1 3 y /\
      forall i j, (i < 1)%nat -> (j < 3)%nat ->
        (forall z, (Z.of_nat j - 2 + 1 <= z <= Z.of_nat j)%Z ->
                   (0 <= z < Z.of_nat 3)%Z ->
                   at2 [[1; 5; 2]] i (Z.to_nat z) <= at2 y i j) /\
        (exists z, (Z.of_nat j - 2 + 1 <= z <= Z.of_nat j)%Z /\
                   (0 <= z < Z.of_nat 3)%Z /\
                   at2 y i j = at2 [[1; 5; 2]] i (Z.to_nat z))) /\
  moving_max (lift [[1; 5; 2]]) 1 = Ok (lift [[1; 5; 2]]).
Proof.
  apply (moving_max_window_max 1 3 [[1; 5; 2]] 2).
  - solve_rect.
  - lia.
Defined.

(** ** Broadcasting on arrays given by entries *)

Lemma hd_tab {A : Type} (d : A) (n : nat) (g : nat -> A) :
  hd d (tab n g) = if (n =? 0)%nat then d else g 0%nat.
Proof. destruct n; [reflexivity|]. now rewrite tab_S. Qed.

Lemma shape2_tab2 {A : Type} (b t : nat) (g : nat -> nat -> A) :
  shape2 (tab2 b t g) = (b, if (b =? 0)%nat then 0%nat else t).
Proof.
  unfold shape2, tab2. rewrite tab_length, hd_tab.
  destruct (b =? 0)%nat; [reflexivity|]. now rewrite tab_length.
Qed.

Lemma shape3_tab3 {A : Type} (b t c : nat) (g : nat -> nat -> nat -> A) :
  shape3 (tab3 b t c g) =
  (b, if (b =? 0)%nat then 0%nat else t,
   if ((b =? 0) || (t =? 0))%nat then 0%nat else c).
Proof.
  unfold shape3, tab3, tab2. rewrite tab_length, hd_tab.
  destruct (b =? 0)%nat; [reflexivity|]. rewrite tab_length, hd_tab.
  destruct (t =? 0)%nat; [reflexivity|]. now rewrite tab_length.
Qed.

Lemma dims_agree_refl (a : nat) : dims_agree a a = true.
Proof. unfold dims_agree. now rewrite Nat.eqb_refl. Qed.

Lemma bzip_tab {A B C : Type} (f : A -> B -> C) (n : nat)
    (g : nat -> A) (h : nat -> B) :
  bzip f (tab n g) (tab n h) = tab n (fun i => f (g i) (h i)).
Proof.
  destruct n as [|[|n]]; [reflexivity|reflexivity|].
  rewrite <- zip_with_tab. rewrite 2!(tab_S (S n)), 2!(tab_S n). reflexivity.
Qed.

Lemma bzip_single_r {A B C : Type} (f : A -> B -> C) (xs : list A) (y : B) :
  bzip f xs [y] = map (fun x => f x y) xs.
Proof. destruct xs as [|x [|x' xs]]; reflexivity. Qed.

Lemma bzip_single_l {A B C : Type} (f : A -> B -> C) (x : A) (ys : list B) :
  bzip f [x] ys = map (f x) ys.
Proof. reflexivity. Qed.

Lemma broadcast2_tab2 (f : xreal -> xreal -> xreal) (b t1 t2 : nat)
    (g h : nat -> nat -> xreal) :
  dims_agree t1 t2 = true ->
  broadcast2 f (tab2 b t1 g) (tab2 b t2 h) =
  Ok (tab b (fun i => bzip f (tab t1 (g i)) (tab t2 (h i)))).
Proof.
  intros Ht. unfold broadcast2. rewrite !shape2_tab2, dims_agree_refl.
  replace (dims_agree _ _) with true
    by (destruct (b =? 0)%nat; [reflexivity|now symmetry]).
  cbn [andb]. f_equal. unfold tab2. apply bzip_tab.
Qed.

Lemma broadcast2_same (f : xreal -> xreal -> xreal) (b t : nat)
    (g h : nat -> nat -> xreal) :
  broadcast2 f (tab2 b t g) (tab2 b t h) =
  Ok (tab2 b t (fun i j => f (g i j) (h i j))).
Proof.
  rewrite broadcast2_tab2 by apply dims_agree_refl. f_equal.
  apply tab_ext. intros i _. apply bzip_tab.
Qed.

Lemma broadcast2_column (f : xreal -> xreal -> xreal) (b t : nat)
    (g : nat -> nat -> xreal) (m : nat -> xreal) :
  broadcast2 f (tab2 b t g) (tab b (fun i => [m i])) =
  Ok (tab2 b t (fun i j => f (g i j) (m i))).
Proof.
  change (tab b (fun i => [m i])) with (tab2 b 1 (fun i _ => m i)).
  rewrite broadcast2_tab2
    by (unfold dims_agree; now rewrite Nat.eqb_refl, orb_true_r).
  f_equal. apply tab_ext. intros i _.
  change (tab 1 (fun _ : nat => m i)) with [m i].
  now rewrite bzip_single_r, map_tab.
Qed.

Lemma broadcast3_tab3 (f : xreal -> xreal -> xreal) (b t c1 c2 : nat)
    (g h : nat -> nat -> nat -> xreal) :
  dims_agree c1 c2 = true ->
  broadcast3 f (tab3 b t c1 g) (tab3 b t c2 h) =
  Ok (tab2 b t (fun i j => bzip f (tab c1 (g i j)) (tab c2 (h i j)))).
Proof.
  intros Hc. unfold broadcast3. rewrite !shape3_tab3, !dims_agree_refl.
  replace (dims_agree (if ((b =? 0) || (t =? 0))%nat then 0%nat else c1) _)
    with true
    by (destruct ((b =? 0) || (t =? 0))%nat; [reflexivity|now symmetry]).
  cbn [andb]. f_equal. unfold tab3, tab2.
  rewrite bzip_tab. apply tab_ext. intros i _. apply bzip_tab.
Qed.

Lemma broadcast3_same (f : xreal -> xreal -> xreal) (b t c : nat)
    (g h : nat -> nat -> nat -> xreal) :
  broadcast3 f (tab3 b t c g) (tab3 b t c h) =
  Ok (tab3 b t c (fun i j s => f (g i j s) (h i j s))).
Proof.
  rewrite broadcast3_tab3 by apply dims_agree_refl. f_equal.
  apply tab_ext. intros i _. apply tab_ext. intros j _. apply bzip_tab.
Qed.

Lemma broadcast3_last_r (f : xreal -> xreal -> xreal) (b t c : nat)
    (g : nat -> nat -> nat -> xreal) (h : nat -> nat -> xreal) :
  broadcast3 f (tab3 b t c g) (tab3 b t 1 (fun i j _ => h i j)) =
  Ok (tab3 b t c (fun i j s => f (g i j s) (h i j))).
Proof.
  rewrite broadcast3_tab3
    by (unfold dims_agree; now rewrite Nat.eqb_refl, orb_true_r).
  f_equal. apply tab_ext. intros i _. apply tab_ext. intros j _.
  change (tab 1 (fun _ : nat => h i j)) with [h i j].
  now rewrite bzip_single_r, map_tab.
Qed.

Lemma broadcast3_last_l (f : xreal -> xreal -> xreal) (b t c : nat)
    (g : nat -> nat -> xreal) (h : nat -> nat -> nat -> xreal) :
  broadcast3 f (tab3 b t 1 (fun i j _ => g i j)) (tab3 b t c h) =
  Ok (tab3 b t c (fun i j s => f (g i j) (h i j s))).
Proof.
  rewrite broadcast3_tab3
    by (unfold dims_agree; now rewrite Nat.eqb_refl, orb_true_r).
  f_equal. apply tab_ext. intros i _. apply tab_ext. intros j _.
  change (tab 1 (fun _ : nat => g i j)) with [g i j].
  now rewrite bzip_single_l, map_tab.
Qed.

(** ** [efficient_chunkwise_attention] by entries *)

Lemma maximum_Fin (l : list R) : l <> [] -> maximum (map Fin l) = Fin (list_max l).
Proof.
  induction l as [|a l IH]; [congruence|]. intros _.
  destruct l as [|c l]; [reflexivity|].
  change (maximum (map Fin (a :: c :: l)))
    with (xmax (Fin a) (maximum (map Fin (c :: l)))).
  rewrite IH by discriminate. reflexivity.
Qed.

Lemma maximum_tab_Fin (t : nat) (g : nat -> R) :
  (0 < t)%nat -> maximum (tab t (fun j => Fin (g j))) = Fin (list_max (tab t g)).
Proof.
  intros Ht. rewrite <- maximum_Fin, map_tab; [reflexivity|].
  destruct t; [lia|]. rewrite tab_S. discriminate.
Qed.

Lemma efficient_softmax_exp_real (b t : nat) (u : nat -> nat -> R) :
  efficient_softmax_exp (tab2 b t (fun i j => Fin (u i j))) =
  Ok (tab2 b t (fun i j => Fin (eff_exp t (u i) j))).
Proof.
  unfold efficient_softmax_exp, reduce_max_keep.
  unfold tab2 at 2. rewrite map_tab, broadcast2_column. cbn [bind].
  f_equal. unfold maximum_scalar, map2d, tab2.
  rewrite !map_tab. apply tab_ext. intros i _.
  rewrite !map_tab. apply tab_ext. intros j Hj.
  rewrite maximum_tab_Fin by lia. reflexivity.
Qed.

Lemma exp_floor_le (t : nat) (u : nat -> R) (j : nat) : floor <= eff_exp t u j.
Proof. apply Rmax_r. Qed.

Lemma floor_pos : 0 < floor.
Proof. unfold floor. lra. Qed.

Lemma Rsum_ge_term {A : Type} (f : A -> R) (l : list A) (a : A) :
  (forall c, In c l -> 0 <= f c) -> In a l -> f a <= Rsum (map f l).
Proof.
  induction l as [|c l IH]; intros Hpos Hin; [destruct Hin|].
  simpl.
  assert (0 <= f c) by (apply Hpos; now left).
  assert (0 <= Rsum (map f l))
    by (apply Rsum_map_nonneg; intros; apply Hpos; now right).
  destruct Hin as [-> | Hin]; [lra|].
  assert (f a <= Rsum (map f l)) by (apply IH; [intros; apply Hpos; now right|assumption]).
  lra.
Qed.

Lemma Zsum_ge_term (lo hi z : Z) (f : Z -> R) :
  (forall y, (lo <= y <= hi)%Z -> 0 <= f y) -> (lo <= z <= hi)%Z ->
  f z <= Zsum lo hi f.
Proof.
  intros Hpos Hz. apply Rsum_ge_term.
  - intros y Hy. now apply Hpos, In_zrange.
  - now apply In_zrange.
Qed.

Lemma clip_nonneg (t : nat) (g : nat -> R) (z : Z) :
  (forall k, (k < t)%nat -> 0 <= g k) -> 0 <= clip t 0 g z.
Proof.
  intros H. rewrite clip_in_row. destruct (in_row t z) eqn:E; [|lra].
  apply in_row_iff in E. apply H. lia.
Qed.

Lemma clip_inside {A : Type} (t : nat) (v : A) (g : nat -> A) (k : nat) :
  (k < t)%nat -> clip t v g (Z.of_nat k) = g k.
Proof.
  intros Hk. rewrite clip_in_row.
  replace (in_row t (Z.of_nat k)) with true by (symmetry; apply in_row_iff; lia).
  now rewrite Nat2Z.id.
Qed.

Lemma eff_exp_pos (t : nat) (u : nat -> R) (j : nat) : 0 < eff_exp t u j.
Proof. pose proof (exp_floor_le t u j). pose proof floor_pos. lra. Qed.

(** Every softmax denominator of the efficient variant contains the clamped
    exponential of each position of its chunk. *)
Lemma eff_den_ge (t : nat) (w : Z) (u : nat -> R) (k j : nat) :
  (k < t)%nat -> (Z.of_nat k - (w - 1) <= Z.of_nat j <= Z.of_nat k)%Z ->
  eff_exp t u j <= eff_den t w u k.
Proof.
  intros Hk Hj. unfold eff_den.
  rewrite <- (clip_inside t 0 (eff_exp t u) j) at 1 by lia.
  apply Zsum_ge_term; [|lia].
  intros y _. apply clip_nonneg. intros. apply Rlt_le, eff_exp_pos.
Qed.

Lemma eff_den_floor (t : nat) (w : Z) (u : nat -> R) (k : nat) :
  (1 <= w)%Z -> (k < t)%nat -> floor <= eff_den t w u k.
Proof.
  intros Hw Hk. eapply Rle_trans; [apply (exp_floor_le t u k)|].
  apply eff_den_ge; [assumption|lia].
Qed.

Lemma xdiv_Fin (a d : R) : d <> 0 -> xdiv (Fin a) (Fin d) = Fin (a / d).
Proof. intros Hd. simpl. destruct (Req_dec_T d 0); [contradiction|reflexivity]. Qed.

Lemma efficient_real (b t : nat) (alpha u : nat -> nat -> R) (w : Z) :
  (1 <= w)%Z ->
  efficient_chunkwise_attention w (tab2 b t (fun i j => Fin (alpha i j)))
                                  (tab2 b t (fun i j => Fin (u i j))) =
  Ok (tab2 b t (fun i j => Fin (eff_out t w (alpha i) (u i) j))).
Proof.
  intros Hw. unfold efficient_chunkwise_attention.
  rewrite efficient_softmax_exp_real. cbn [bind].
  rewrite moving_sum_real by lia. cbn [bind].
  rewrite broadcast2_same. cbn [bind].
  rewrite (tab2_ext b t _ (fun i j => Fin (alpha i j / eff_den t w (u i) j))).
  2:{ intros i j _ Hj. apply xdiv_Fin, Rgt_not_eq.
      eapply Rlt_le_trans; [apply floor_pos|].
      exact (eff_den_floor t w (u i) j Hw Hj). }
  rewrite moving_sum_real by lia. cbn [bind].
  rewrite broadcast2_same. reflexivity.
Qed.

Lemma efficient_lift (b t : nat) (alpha u : list (list R)) (w : Z) :
  rect b t alpha -> rect b t u -> (1 <= w)%Z ->
  efficient_chunkwise_attention w (lift alpha) (lift u) =
  Ok (lift (tab2 b t (fun i j => eff_out t w (at2 alpha i) (at2 u i) j))).
Proof.
  intros Ha Hu Hw.
  rewrite (lift_rect b t alpha Ha), (lift_rect b t u Hu), lift_tab2.
  now apply efficient_real.
Qed.

(** ** [stable_chunkwise_attention] by entries *)

Lemma expand_dims_tab2 (b t : nat) (g : nat -> nat -> xreal) :
  expand_dims (tab2 b t g) = tab3 b t 1 (fun i j _ => g i j).
Proof.
  unfold expand_dims, map2d, tab3, tab2. rewrite map_tab.
  apply tab_ext. intros i _. now rewrite map_tab.
Qed.

Lemma map3d_tab3 (f : xreal -> xreal) (b t c : nat)
    (g : nat -> nat -> nat -> xreal) :
  map3d f (tab3 b t c g) = tab3 b t c (fun i j s => f (g i j s)).
Proof.
  unfold map3d, tab3, tab2. rewrite map_tab. apply tab_ext. intros i _.
  rewrite map_tab. apply tab_ext. intros j _. now rewrite map_tab.
Qed.

Lemma reduce_sum_last_tab3 (b t c : nat) (g : nat -> nat -> nat -> xreal) :
  reduce_sum_last (tab3 b t c g) = tab2 b t (fun i j => xsum (tab c (g i j))).
Proof.
  unfold reduce_sum_last, map2d, tab3, tab2. rewrite map_tab.
  apply tab_ext. intros i _. now rewrite map_tab.
Qed.

(** The frames of a row that was padded at the start. *)
Lemma frame_padded_tab2 (b t : nat) (g : nat -> nat -> xreal) (w : Z)
    (v pad_value : xreal) :
  (1 <= w)%Z ->
  frame (tab2 b (Z.to_nat (w - 1) + t + Z.to_nat 0)
           (fun i => padded (Z.to_nat (w - 1)) t v (g i)))
        w false pad_value =
  tab3 b t (Z.to_nat w)
       (fun i k s => clip t v (g i) (Z.of_nat k - w + 1 + Z.of_nat s)).
Proof.
  intros Hw. unfold frame, tab3, tab2. rewrite map_tab.
  apply tab_ext. intros i _. rewrite windows_tab.
  match goal with
  | |- tab ?n _ = _ => replace n with t by lia
  end.
  apply tab_ext. intros k _. apply tab_ext. intros s _.
  rewrite padded_clip. f_equal. lia.
Qed.

(** The frames of a row, padded at the end. *)
Lemma frame_pad_end_tab2 (b t : nat) (g : nat -> nat -> xreal) (w : Z) (v : xreal) :
  (1 <= w)%Z ->
  frame (tab2 b t g) w true v =
  tab3 b t (Z.to_nat w) (fun i j s => clip t v (g i) (Z.of_nat j + Z.of_nat s)).
Proof.
  intros Hw. unfold frame, tab3, tab2. rewrite map_tab.
  apply tab_ext. intros i _.
  change (tab t (g i) ++ repeat v (Z.to_nat w - 1))
    with (repeat v 0 ++ tab t (g i) ++ repeat v (Z.to_nat w - 1)).
  rewrite pad_row_tab, windows_tab.
  match goal with
  | |- tab ?n _ = _ => replace n with t by lia
  end.
  apply tab_ext. intros j _. apply tab_ext. intros s _.
  rewrite padded_clip. f_equal. lia.
Qed.

Lemma ones_tab3 (b t : nat) (w : Z) :
  (1 <= w)%Z ->
  ones (Z.of_nat b) (Z.of_nat (if (b =? 0)%nat then 0 else t)) w =
  Ok (tab3 b t (Z.to_nat w) (fun _ _ _ => one)).
Proof.
  intros Hw. unfold ones.
  destruct (Z.ltb_spec (Z.of_nat b) 0); [lia|].
  destruct (Z.ltb_spec (Z.of_nat (if (b =? 0)%nat then 0 else t)) 0); [lia|].
  destruct (Z.ltb_spec w 0); [lia|]. cbn [orb]. f_equal.
  rewrite !Nat2Z.id. destruct b as [|b]; [reflexivity|].
  cbn [Nat.eqb]. unfold tab3, tab2. rewrite repeat_tab.
  apply tab_ext. intros i _. rewrite repeat_tab.
  apply tab_ext. intros j _. apply repeat_tab.
Qed.

Lemma st_den_pos (t : nat) (w : Z) (u : nat -> R) (k : nat) :
  (1 <= w)%Z -> (k < t)%nat -> 0 < st_den t w u k.
Proof.
  intros Hw Hk. unfold st_den.
  eapply Rlt_le_trans; [apply (exp_pos (u k - st_max t w u k))|].
  rewrite <- (clip_inside t 0 (fun l => exp (u l - st_max t w u k)) k) at 1
    by assumption.
  apply Zsum_ge_term; [|lia].
  intros y _. apply clip_nonneg. intros. apply Rlt_le, exp_pos.
Qed.

Lemma stable_den_entry (t : nat) (g : nat -> R) (m : R) (z : Z) :
  xexp (xsub (clip t NInf (fun l => Fin (g l)) z) (Fin m)) =
  Fin (clip t 0 (fun l => exp (g l - m)) z).
Proof. rewrite !clip_in_row. destruct (in_row t z); reflexivity. Qed.

Lemma stable_out_entry (t : nat) (alpha m d : nat -> R) (uj : R) (z : Z) :
  (forall k, (k < t)%nat -> d k <> 0) ->
  xdiv (xmul (clip t zero (fun k => Fin (alpha k)) z)
             (xexp (xsub (xmul (Fin uj) one) (clip t PInf (fun k => Fin (m k)) z))))
       (clip t PInf (fun k => Fin (d k)) z) =
  Fin (clip t 0 (fun k => alpha k * exp (uj - m k) / d k) z).
Proof.
  intros Hd. rewrite mul_one_r, !clip_in_row.
  destruct (in_row t z) eqn:E.
  - apply in_row_iff in E.
    change (xdiv (Fin (alpha (Z.to_nat z) * exp (uj - m (Z.to_nat z))))
                 (Fin (d (Z.to_nat z))) =
            Fin (alpha (Z.to_nat z) * exp (uj - m (Z.to_nat z)) / d (Z.to_nat z))).
    apply xdiv_Fin, Hd. lia.
  - reflexivity.
Qed.

(** The part of [stable_chunkwise_attention] that reads the logits only:
    what remains is to weigh the frames of [emit_probs]. *)
Lemma stable_logits_part (b t : nat) (emit_probs : mat) (u : nat -> nat -> R) (w : Z) :
  (1 <= w)%Z ->
  stable_chunkwise_attention w emit_probs (tab2 b t (fun i j => Fin (u i j))) =
  (weighted <- broadcast3 xmul (frame emit_probs w true zero)
     (tab3 b t (Z.to_nat w) (fun i j s =>
        xexp (xsub (xmul (Fin (u i j)) one)
                   (clip t PInf (fun k => Fin (st_max t w (u i) k))
                         (Z.of_nat j + Z.of_nat s))))) ;;
   terms <- broadcast3 xdiv weighted
     (tab3 b t (Z.to_nat w) (fun i j s =>
        clip t PInf (fun k => Fin (st_den t w (u i) k))
             (Z.of_nat j + Z.of_nat s))) ;;
   Ok (reduce_sum_last terms)).
Proof.
  intros Hw. unfold stable_chunkwise_attention.
  rewrite moving_max_real by assumption. cbn [bind].
  rewrite pad_tab2 by lia. cbn [bind].
  rewrite (frame_padded_tab2 b t (fun i j => Fin (u i j))) by assumption.
  rewrite expand_dims_tab2, broadcast3_last_r. cbn [bind].
  rewrite map3d_tab3, reduce_sum_last_tab3.
  match goal with
  | |- context [tab2 b t (fun i k => xsum (@?h i k))] =>
      rewrite (tab2_ext b t (fun i k => xsum (h i k))
                 (fun i k => Fin (st_den t w (u i) k)))
  end.
  2:{ intros i k _ _. unfold st_den. rewrite Zsum_tab.
      replace (Z.to_nat (Z.of_nat k - (Z.of_nat k - w + 1) + 1))
        with (Z.to_nat w) by lia.
      rewrite <- sum_tab_Fin. f_equal. apply tab_ext. intros s _.
      apply stable_den_entry. }
  rewrite !(frame_pad_end_tab2 b t) by assumption.
  rewrite shape2_tab2, ones_tab3 by assumption. cbn [bind].
  rewrite expand_dims_tab2, broadcast3_last_l. cbn [bind].
  rewrite broadcast3_same. cbn [bind].
  rewrite map3d_tab3. reflexivity.
Qed.

Lemma stable_real (b t : nat) (alpha u : nat -> nat -> R) (w : Z) :
  (1 <= w)%Z ->
  stable_chunkwise_attention w (tab2 b t (fun i j => Fin (alpha i j)))
                               (tab2 b t (fun i j => Fin (u i j))) =
  Ok (tab2 b t (fun i j => Fin (st_out t w (alpha i) (u i) j))).
Proof.
  intros Hw. rewrite stable_logits_part by assumption.
  rewrite frame_pad_end_tab2 by assumption.
  rewrite broadcast3_same. cbn [bind].
  rewrite broadcast3_same. cbn [bind].
  rewrite reduce_sum_last_tab3. f_equal.
  apply tab2_ext. intros i j _ _. unfold st_out. rewrite Zsum_tab.
  replace (Z.to_nat (Z.of_nat j + w - 1 - Z.of_nat j + 1)) with (Z.to_nat w) by lia.
  rewrite <- sum_tab_Fin. f_equal. apply tab_ext. intros s _.
  apply (stable_out_entry t (alpha i) (st_max t w (u i)) (st_den t w (u i))).
  intros k Hk. apply Rgt_not_eq. now apply st_den_pos.
Qed.

Lemma stable_lift (b t : nat) (alpha u : list (list R)) (w : Z) :
  rect b t alpha -> rect b t u -> (1 <= w)%Z ->
  stable_chunkwise_attention w (lift alpha) (lift u) =
  Ok (lift (tab2 b t (fun i j => st_out t w (at2 alpha i) (at2 u i) j))).
Proof.
  intros Ha Hu Hw.
  rewrite (lift_rect b t alpha Ha), (lift_rect b t u Hu), lift_tab2.
  now apply stable_real.
Qed.

(** ** Chunks of one element *)







(** ** The clamp of the efficient variant *)

Lemma efficient_softmax_denominators_real (b t : nat) (u : nat -> nat -> R) (w : Z) :
  (1 <= w)%Z ->
  efficient_softmax_denominators w (tab2 b t (fun i j => Fin (u i j))) =
  Ok (tab2 b t (fun i k => Fin (eff_den t w (u i) k))).
Proof.
  intros Hw. unfold efficient_softmax_denominators.
  rewrite efficient_softmax_exp_real. cbn [bind].
  now rewrite moving_sum_real by lia.
Qed.

(** C6.  In [efficient_chunkwise_attention], on every real array of logits
    and every positive chunk size, each clamped exponential is at least the
    floor [1e-5]; so each entry of [softmax_denominators] is at least [1e-5]
    and positive, and dividing [emit_probs] by it is a division by a non-zero
    number. *)
Theorem efficient_denominators_above_floor (b t : nat)
    (softmax_logits : list (list R)) (chunk_size : Z) :
  rect b t softmax_logits -> (1 <= chunk_size)%Z ->
  exists softmax_exp softmax_denominators,
    efficient_softmax_exp (lift softmax_logits) = Ok (lift softmax_exp) /\
    efficient_softmax_denominators chunk_size (lift softmax_logits) =
      Ok (lift softmax_denominators) /\
    rect b t softmax_exp /\ rect b t softmax_denominators /\
    forall i j, (i < b)%nat -> (j < t)%nat ->
      1 / 100000 <= at2 softmax_exp i j /\
      1 / 100000 <= at2 softmax_denominators i j /\
      0 < at2 softmax_denominators i j /\
      forall a : R,
        xdiv (Fin a) (Fin (at2 softmax_denominators i j)) =
        Fin (a / at2 softmax_denominators i j).
Proof.
  intros Hu Hw.
  exists (tab2 b t (fun i j => eff_exp t (at2 softmax_logits i) j)).
  exists (tab2 b t (fun i k => eff_den t chunk_size (at2 softmax_logits i) k)).
  rewrite (lift_rect b t softmax_logits Hu), !lift_tab2.
  split; [apply efficient_softmax_exp_real|].
  split; [now apply efficient_softmax_denominators_real|].
  split; [apply rect_tab2|]. split; [apply rect_tab2|].
  intros i j Hi Hj. rewrite !at2_tab2 by assumption.
  pose proof (exp_floor_le t (at2 softmax_logits i) j) as He.
  pose proof (eff_den_floor t chunk_size (at2 softmax_logits i) j Hw Hj) as Hd.
  pose proof floor_pos as Hf. unfold floor in He, Hd, Hf.
  repeat split; try lra.
  intros a. apply xdiv_Fin. lra.
Qed.

Lemma efficient_denominators_above_floor_witness :
  exists softmax_exp softmax_denominators,
    efficient_softmax_exp (lift [[0; -20; 1]]) = Ok (lift softmax_exp) /\
    efficient_softmax_denominators 2 (lift [[0; -20; 1]]) =
      Ok (lift softmax_denominators) /\
    rect 1 3 softmax_exp /\ rect 1 3 softmax_denominators /\
    forall i j, (i < 1)%nat -> (j < 3)%nat ->
      1 / 100000 <= at2 softmax_exp i j /\
      1 / 100000 <= at2 softmax_denominators i j /\
      0 < at2 softmax_denominators i j /\
      forall a : R,
        xdiv (Fin a) (Fin (at2 softmax_denominators i j)) =
        Fin (a / at2 softmax_denominators i j).
Proof.
  apply (efficient_denominators_above_floor 1 3 [[0; -20; 1]] 2).
  - solve_rect.
  - lia.
Defined.

(** ** The two variants on logits of small range *)

Lemma clip_ext {A : Type} (t : nat) (v : A) (g h : nat -> A) (z : Z) :
  (forall k, (k < t)%nat -> g k = h k) -> clip t v g z = clip t v h z.
Proof.
  intros H. rewrite !clip_in_row. destruct (in_row t z) eqn:E; [|reflexivity].
  apply in_row_iff in E. apply H. lia.
Qed.

Section SmallRange.

Variables (t : nat) (w : Z) (alpha u : nat -> R).

(** The clamp never acts on the row. *)
Hypothesis no_clamp :
  forall j, (j < t)%nat -> floor <= exp (u j - list_max (tab t u)).

Lemma eff_exp_no_clamp (j : nat) :
  (j < t)%nat -> eff_exp t u j = exp (u j - list_max (tab t u)).
Proof. intros Hj. unfold eff_exp. apply Rmax_left. now apply no_clamp. Qed.

Lemma eff_den_no_clamp (k : nat) :
  eff_den t w u k =
  exp (st_max t w u k - list_max (tab t u)) * st_den t w u k.
Proof.
  unfold eff_den, st_den. rewrite <- Zsum_scal.
  replace (Z.of_nat k - (w - 1))%Z with (Z.of_nat k - w + 1)%Z by lia.
  replace (Z.of_nat k + 0)%Z with (Z.of_nat k) by lia.
  apply Zsum_ext. intros z _. rewrite <- clip_scal. apply clip_ext.
  intros l Hl. rewrite eff_exp_no_clamp by assumption.
  rewrite <- exp_plus. f_equal. lra.
Qed.

Lemma eff_out_no_clamp (j : nat) :
  (1 <= w)%Z -> (j < t)%nat -> eff_out t w alpha u j = st_out t w alpha u j.
Proof.
  intros Hw Hj. unfold eff_out, st_out. rewrite <- Zsum_scal.
  replace (Z.of_nat j - 0)%Z with (Z.of_nat j) by lia.
  replace (Z.of_nat j + (w - 1))%Z with (Z.of_nat j + w - 1)%Z by lia.
  apply Zsum_ext. intros z _. rewrite <- clip_scal. apply clip_ext.
  intros k Hk. rewrite eff_exp_no_clamp, eff_den_no_clamp by assumption.
  replace (u j - list_max (tab t u))
    with ((u j - st_max t w u k) + (st_max t w u k - list_max (tab t u))) by lra.
  rewrite exp_plus.
  pose proof (exp_pos (st_max t w u k - list_max (tab t u))).
  pose proof (st_den_pos t w u k Hw Hk).
  field. lra.
Qed.

End SmallRange.

Lemma tab_at2_row (b t : nat) (x : list (list R)) (i : nat) :
  rect b t x -> (i < b)%nat -> tab t (at2 x i) = nth i x [].
Proof.
  intros Hx Hi. symmetry. apply (list_eq_tab 0); [|reflexivity].
  now apply (rect_row_length b).
Qed.

(** ** Claims about the two attention functions together *)

(** C1.  On every [emit_probs] and every [softmax_logits] of the same shape
    whose range is small, in that no exponential of a logit shifted by its
    row maximum falls under the floor [1e-5], and every positive chunk size,
    [efficient_chunkwise_attention] and [stable_chunkwise_attention] return
    the same array: they agree at every element (in exact arithmetic, so
    within every tolerance).  Rows of [emit_probs] summing to 1 is not
    needed. *)
Theorem efficient_agrees_with_stable (b t : nat)
    (emit_probs softmax_logits : list (list R)) (chunk_size : Z) :
  rect b t emit_probs -> rect b t softmax_logits -> (1 <= chunk_size)%Z ->
  (forall i j, (i < b)%nat -> (j < t)%nat ->
     1 / 100000 <= exp (at2 softmax_logits i j - list_max (nth i softmax_logits []))) ->
  exists probs,
    rect b t probs /\
    efficient_chunkwise_attention chunk_size (lift emit_probs) (lift softmax_logits) =
      Ok (lift probs) /\
    stable_chunkwise_attention chunk_size (lift emit_probs) (lift softmax_logits) =
      Ok (lift probs).
Proof.
  intros Ha Hu Hw Hrange.
  exists (tab2 b t (fun i j =>
            st_out t chunk_size (at2 emit_probs i) (at2 softmax_logits i) j)).
  split; [apply rect_tab2|]. split; [|now apply stable_lift].
  rewrite (efficient_lift b t) by assumption. f_equal. f_equal.
  apply tab2_ext. intros i j Hi Hj. apply eff_out_no_clamp; try assumption.
  intros k Hk. rewrite (tab_at2_row b t softmax_logits i Hu Hi).
  now apply Hrange.
Qed.

(** ** Bounds on the outputs *)

Lemma zrange_NoDup (lo hi : Z) : NoDup (zrange lo hi).
Proof.
  unfold zrange. apply Injective_map_NoDup; [|apply seq_NoDup].
  intros x y H. lia.
Qed.

Lemma Rsum_app (l1 l2 : list R) : Rsum (l1 ++ l2) = Rsum l1 + Rsum l2.
Proof. induction l1 as [|a l1 IH]; simpl; [lra|]. rewrite IH. lra. Qed.

Lemma Rsum_map_zero {A : Type} (f : A -> R) (l : list A) :
  (forall a, In a l -> f a = 0) -> Rsum (map f l) = 0.
Proof.
  induction l as [|a l IH]; intros H; simpl; [reflexivity|].
  rewrite H by now left. rewrite IH; [lra|]. intros; apply H; now right.
Qed.

(** A value counted at one position of a duplicate-free list is counted at
    most once. *)
Lemma Rsum_at_most_once (c : Z) (a : R) (zs : list Z) :
  NoDup zs -> 0 <= a ->
  Rsum (map (fun z => if (z =? c)%Z then a else 0) zs) <= a.
Proof.
  intros Hnd Ha. induction Hnd as [|z zs Hz Hnd IH]; simpl; [lra|].
  destruct (Z.eqb_spec z c) as [-> |Hne]; [|lra].
  rewrite Rsum_map_zero; [lra|].
  intros y Hy. destruct (Z.eqb_spec y c) as [-> |]; [contradiction|reflexivity].
Qed.

Lemma clip_S (t : nat) (g : nat -> R) (z : Z) :
  clip (S t) 0 g z = clip t 0 g z + (if (z =? Z.of_nat t)%Z then g t else 0).
Proof.
  unfold clip.
  destruct (Z.leb_spec 0 z); cbn [andb].
  - destruct (Z.ltb_spec z (Z.of_nat (S t))), (Z.ltb_spec z (Z.of_nat t)),
      (Z.eqb_spec z (Z.of_nat t)); try lia; try lra.
    subst z. rewrite Nat2Z.id. lra.
  - destruct (Z.eqb_spec z (Z.of_nat t)); [lia|lra].
Qed.

(** The entries of a non-negative row found at distinct positions sum to at
    most the whole row. *)
Lemma Rsum_clip_le_row (t : nat) (g : nat -> R) (zs : list Z) :
  NoDup zs -> (forall k, (k < t)%nat -> 0 <= g k) ->
  Rsum (map (clip t 0 g) zs) <= Rsum (tab t g).
Proof.
  intros Hnd. induction t as [|t IH]; intros Hg.
  - rewrite Rsum_map_zero; [simpl; lra|]. intros z _. unfold clip.
    destruct (Z.leb_spec 0 z), (Z.ltb_spec z (Z.of_nat 0)); try reflexivity; lia.
  - rewrite (Rsum_map_ext _ (fun z => clip t 0 g z +
                                      (if (z =? Z.of_nat t)%Z then g t else 0)))
      by (intros; apply clip_S).
    rewrite Rsum_map_plus, tab_snoc, Rsum_app. simpl.
    assert (Rsum (map (clip t 0 g) zs) <= Rsum (tab t g))
      by (apply IH; intros; apply Hg; lia).
    assert (Rsum (map (fun z => if (z =? Z.of_nat t)%Z then g t else 0) zs) <= g t)
      by (apply Rsum_at_most_once; [assumption|apply Hg; lia]).
    lra.
Qed.

Lemma Zsum_clip_le_row (t : nat) (g : nat -> R) (lo hi : Z) :
  (forall k, (k < t)%nat -> 0 <= g k) ->
  Zsum lo hi (clip t 0 g) <= Rsum (tab t g).
Proof. intros Hg. apply Rsum_clip_le_row; [apply zrange_NoDup|assumption]. Qed.

Lemma clip_le (t : nat) (g h : nat -> R) (z : Z) :
  (forall k, (k < t)%nat -> Z.of_nat k = z -> g k <= h k) ->
  clip t 0 g z <= clip t 0 h z.
Proof.
  intros H. rewrite !clip_in_row. destruct (in_row t z) eqn:E; [|lra].
  apply in_row_iff in E. apply H; lia.
Qed.

Section Bounds.

Variables (t : nat) (w : Z) (alpha u : nat -> R).

Hypothesis chunk_positive : (1 <= w)%Z.
Hypothesis alpha_nonneg : forall k, (k < t)%nat -> 0 <= alpha k.
Hypothesis alpha_total : Rsum (tab t alpha) = 1.

Lemma eff_out_nonneg (j : nat) : 0 <= eff_out t w alpha u j.
Proof.
  unfold eff_out. apply Rmult_le_pos; [apply Rlt_le, eff_exp_pos|].
  apply Zsum_nonneg. intros z _. apply clip_nonneg. intros k Hk.
  pose proof (eff_den_floor t w u k chunk_positive Hk). pose proof floor_pos.
  apply Rmult_le_pos; [now apply alpha_nonneg|].
  apply Rlt_le, Rinv_0_lt_compat. lra.
Qed.

Lemma eff_out_le_1 (j : nat) : (j < t)%nat -> eff_out t w alpha u j <= 1.
Proof.
  intros Hj. unfold eff_out. rewrite <- Zsum_scal, <- alpha_total.
  eapply Rle_trans; [|apply (Zsum_clip_le_row t alpha); exact alpha_nonneg].
  apply Zsum_le. intros z Hz. rewrite <- clip_scal. apply clip_le.
  intros k Hk Hkz.
  pose proof (eff_den_floor t w u k chunk_positive Hk) as Hd.
  pose proof floor_pos as Hf.
  assert (He : eff_exp t u j <= eff_den t w u k) by (apply eff_den_ge; lia).
  pose proof (eff_exp_pos t u j) as Hp.
  pose proof (alpha_nonneg k Hk) as Ha.
  assert (Hden : 0 < eff_den t w u k) by lra.
  apply (Rmult_le_reg_r (eff_den t w u k)); [assumption|].
  replace (eff_exp t u j * (alpha k / eff_den t w u k) * eff_den t w u k)
    with (eff_exp t u j * alpha k) by (field; lra).
  rewrite (Rmult_comm (eff_exp t u j)).
  apply Rmult_le_compat_l; assumption.
Qed.

Lemma st_num_le_den (j k : nat) :
  (k < t)%nat -> (Z.of_nat k - w + 1 <= Z.of_nat j <= Z.of_nat k)%Z ->
  exp (u j - st_max t w u k) <= st_den t w u k.
Proof.
  intros Hk Hj. unfold st_den.
  rewrite <- (clip_inside t 0 (fun l => exp (u l - st_max t w u k)) j) at 1 by lia.
  apply Zsum_ge_term; [|lia].
  intros y _. apply clip_nonneg. intros. apply Rlt_le, exp_pos.
Qed.

Lemma st_out_nonneg (j : nat) : 0 <= st_out t w alpha u j.
Proof.
  unfold st_out. apply Zsum_nonneg. intros z _. apply clip_nonneg. intros k Hk.
  pose proof (st_den_pos t w u k chunk_positive Hk).
  apply Rmult_le_pos; [|apply Rlt_le, Rinv_0_lt_compat; assumption].
  apply Rmult_le_pos; [now apply alpha_nonneg|apply Rlt_le, exp_pos].
Qed.

Lemma st_out_le_1 (j : nat) : (j < t)%nat -> st_out t w alpha u j <= 1.
Proof.
  intros Hj. unfold st_out. rewrite <- alpha_total.
  eapply Rle_trans; [|apply (Zsum_clip_le_row t alpha); exact alpha_nonneg].
  apply Zsum_le. intros z Hz. apply clip_le.
  intros k Hk Hkz.
  pose proof (st_den_pos t w u k chunk_positive Hk) as Hd.
  assert (He : exp (u j - st_max t w u k) <= st_den t w u k)
    by (apply st_num_le_den; [assumption|lia]).
  pose proof (alpha_nonneg k Hk) as Ha.
  apply (Rmult_le_reg_r (st_den t w u k)); [assumption|].
  replace (alpha k * exp (u j - st_max t w u k) / st_den t w u k * st_den t w u k)
    with (alpha k * exp (u j - st_max t w u k)) by (field; lra).
  apply Rmult_le_compat_l; assumption.
Qed.

End Bounds.

(** C7.  On every [emit_probs] with entries in [0, 1] and rows summing to 1,
    every real [softmax_logits] of the same shape and every positive chunk
    size, both functions return an array of that shape whose entries all lie
    in [0, 1]. *)
Theorem attention_outputs_in_unit_interval (b t : nat)
    (emit_probs softmax_logits : list (list R)) (chunk_size : Z) :
  rect b t emit_probs -> rect b t softmax_logits -> (1 <= chunk_size)%Z ->
  (forall i j, (i < b)%nat -> (j < t)%nat -> 0 <= at2 emit_probs i j <= 1) ->
  (forall i, (i < b)%nat -> Rsum (nth i emit_probs []) = 1) ->
  exists efficient stable,
    efficient_chunkwise_attention chunk_size (lift emit_probs) (lift softmax_logits) =
      Ok (lift efficient) /\
    stable_chunkwise_attention chunk_size (lift emit_probs) (lift softmax_logits) =
      Ok (lift stable) /\
    rect b t efficient /\ rect b t stable /\
    forall i j, (i < b)%nat -> (j < t)%nat ->
      0 <= at2 efficient i j <= 1 /\ 0 <= at2 stable i j <= 1.
Proof.
  intros Ha Hu Hw Hunit Hrow.
  eexists. eexists.
  split; [now apply (efficient_lift b t)|].
  split; [now apply (stable_lift b t)|].
  split; [apply rect_tab2|]. split; [apply rect_tab2|].
  intros i j Hi Hj. rewrite !at2_tab2 by assumption.
  assert (Hnn : forall k, (k < t)%nat -> 0 <= at2 emit_probs i k)
    by (intros k Hk; now apply Hunit).
  assert (Htot : Rsum (tab t (at2 emit_probs i)) = 1)
    by (rewrite (tab_at2_row b t emit_probs i Ha Hi); now apply Hrow).
  repeat split.
  - now apply eff_out_nonneg.
  - now apply eff_out_le_1.
  - now apply st_out_nonneg.
  - now apply st_out_le_1.
Qed.

(** ** Sizes that the padding rejects *)

Lemma moving_sum_negative (x : mat) (back forward : Z) :
  (back < 0 \/ forward < 0)%Z -> moving_sum x back forward = Raise negative_padding.
Proof.
  intros H. unfold moving_sum, pad.
  destruct (Z.ltb_spec back 0), (Z.ltb_spec forward 0); try reflexivity. lia.
Qed.

Lemma moving_max_nonpositive (x : mat) (w : Z) :
  (w <= 0)%Z -> moving_max x w = Raise negative_padding.
Proof.
  intros H. unfold moving_max, pad.
  destruct (Z.ltb_spec (w - 1) 0); [reflexivity|lia].
Qed.

Lemma efficient_softmax_exp_ok (x : mat) :
  exists e, efficient_softmax_exp x = Ok e.
Proof.
  unfold efficient_softmax_exp, broadcast2, reduce_max_keep, shape2, dims_agree.
  rewrite length_map, Nat.eqb_refl.
  destruct x as [|row x]; cbn [hd map length andb orb Nat.eqb].
  - eexists. reflexivity.
  - rewrite orb_true_r. eexists. reflexivity.
Qed.

Lemma efficient_nonpositive (chunk_size : Z) (emit_probs softmax_logits : mat) :
  (chunk_size <= 0)%Z ->
  efficient_chunkwise_attention chunk_size emit_probs softmax_logits =
  Raise negative_padding.
Proof.
  intros H. unfold efficient_chunkwise_attention.
  destruct (efficient_softmax_exp_ok softmax_logits) as [e ->]. cbn [bind].
  rewrite moving_sum_negative by lia. reflexivity.
Qed.

Lemma stable_nonpositive (chunk_size : Z) (emit_probs softmax_logits : mat) :
  (chunk_size <= 0)%Z ->
  stable_chunkwise_attention chunk_size emit_probs softmax_logits =
  Raise negative_padding.
Proof.
  intros H. unfold stable_chunkwise_attention.
  now rewrite moving_max_nonpositive.
Qed.

(** ** A constant added to the logits of a row *)

Lemma list_max_shift (c : R) (l : list R) :
  l <> [] -> list_max (map (fun v => v + c) l) = list_max l + c.
Proof.
  induction l as [|a l IH]; [congruence|]. intros _.
  destruct l as [|a' l]; [reflexivity|].
  change (list_max (map (fun v => v + c) (a :: a' :: l)))
    with (Rmax (a + c) (list_max (map (fun v => v + c) (a' :: l)))).
  rewrite IH by discriminate.
  change (list_max (a :: a' :: l)) with (Rmax a (list_max (a' :: l))).
  unfold Rmax.
  destruct (Rle_dec (a + c) (list_max (a' :: l) + c)),
    (Rle_dec a (list_max (a' :: l))); lra.
Qed.

Section Shift.

Variables (t : nat) (w : Z) (alpha u : nat -> R) (c : R).

Lemma eff_exp_shift (j : nat) :
  (j < t)%nat -> eff_exp t (fun j => u j + c) j = eff_exp t u j.
Proof.
  intros Hj. unfold eff_exp. f_equal. f_equal.
  replace (tab t (fun j => u j + c)) with (map (fun v => v + c) (tab t u))
    by now rewrite map_tab.
  rewrite list_max_shift; [lra|].
  destruct t; [lia|]. rewrite tab_S. discriminate.
Qed.

Lemma eff_den_shift (k : nat) : eff_den t w (fun j => u j + c) k = eff_den t w u k.
Proof.
  unfold eff_den. apply Zsum_ext. intros z _. apply clip_ext.
  intros l Hl. now apply eff_exp_shift.
Qed.

Lemma eff_out_shift (j : nat) :
  (j < t)%nat -> eff_out t w alpha (fun j => u j + c) j = eff_out t w alpha u j.
Proof.
  intros Hj. unfold eff_out. rewrite eff_exp_shift by assumption. f_equal.
  apply Zsum_ext. intros z _. apply clip_ext. intros k _.
  now rewrite eff_den_shift.
Qed.

Lemma st_max_shift (k : nat) :
  (1 <= w)%Z -> (k < t)%nat -> st_max t w (fun j => u j + c) k = st_max t w u k + c.
Proof.
  intros Hw Hk. unfold st_max, window_max.
  set (l := filter (in_row t) (zrange (Z.of_nat k - w + 1) (Z.of_nat k))).
  replace (map (fun z => u (Z.to_nat z) + c) l)
    with (map (fun v => v + c) (map (fun z => u (Z.to_nat z)) l))
    by now rewrite map_map.
  apply list_max_shift.
  assert (Hin : In (Z.of_nat k) l).
  { apply filter_In. split; [apply In_zrange; lia|apply in_row_iff; lia]. }
  destruct l; [destruct Hin|discriminate].
Qed.

Lemma st_den_shift (k : nat) :
  (1 <= w)%Z -> (k < t)%nat -> st_den t w (fun j => u j + c) k = st_den t w u k.
Proof.
  intros Hw Hk. unfold st_den. apply Zsum_ext. intros z _. apply clip_ext.
  intros l _. rewrite st_max_shift by assumption. f_equal. lra.
Qed.

Lemma st_out_shift (j : nat) :
  (1 <= w)%Z -> st_out t w alpha (fun j => u j + c) j = st_out t w alpha u j.
Proof.
  intros Hw. unfold st_out. apply Zsum_ext. intros z _. apply clip_ext.
  intros k Hk. rewrite st_max_shift, st_den_shift by assumption.
  f_equal. f_equal. f_equal. lra.
Qed.

End Shift.

Lemma shift_rows_rect (b t : nat) (c : list R) (x : list (list R)) :
  length c = b -> rect b t x ->
  shift_rows c x = tab2 b t (fun i j => at2 x i j + nth i c 0).
Proof.
  intros Hc Hx. unfold shift_rows.
  transitivity (zip_with (fun ci row => map (fun v => v + ci) row)
                  (tab b (fun i => nth i c 0)) (tab2 b t (at2 x))).
  - f_equal; [|now apply rect_as_tab2].
    rewrite <- Hc. apply list_as_tab.
  - unfold tab2. rewrite zip_with_tab. apply tab_ext. intros i _.
    now rewrite map_tab.
Qed.

(** C9.  Adding to all logits of each batch row a constant of that row
    changes the result of neither function, for every pair of real arrays of
    one shape and every chunk size. *)
Theorem attention_invariant_under_row_shift (b t : nat)
    (emit_probs softmax_logits : list (list R)) (c : list R) (chunk_size : Z) :
  rect b t emit_probs -> rect b t softmax_logits -> length c = b ->
  efficient_chunkwise_attention chunk_size (lift emit_probs)
      (lift (shift_rows c softmax_logits)) =
    efficient_chunkwise_attention chunk_size (lift emit_probs) (lift softmax_logits) /\
  stable_chunkwise_attention chunk_size (lift emit_probs)
      (lift (shift_rows c softmax_logits)) =
    stable_chunkwise_attention chunk_size (lift emit_probs) (lift softmax_logits).
Proof.
  intros Ha Hu Hc.
  destruct (Z_le_gt_dec chunk_size 0) as [Hw|Hw].
  - now rewrite !efficient_nonpositive, !stable_nonpositive.
  - assert (Hw' : (1 <= chunk_size)%Z) by lia.
    rewrite (shift_rows_rect b t c softmax_logits Hc Hu).
    rewrite (lift_rect b t emit_probs Ha), (lift_rect b t softmax_logits Hu).
    rewrite lift_tab2, !efficient_real, !stable_real by assumption.
    split; f_equal; apply tab2_ext; intros i j Hi Hj; f_equal.
    + now apply eff_out_shift.
    + now apply st_out_shift.
Qed.

Lemma attention_invariant_under_row_shift_witness :
  efficient_chunkwise_attention 2 (lift [[1 / 4; 3 / 4]])
      (lift (shift_rows [5] [[2; -3]])) =
    efficient_chunkwise_attention 2 (lift [[1 / 4; 3 / 4]]) (lift [[2; -3]]) /\
  stable_chunkwise_attention 2 (lift [[1 / 4; 3 / 4]])
      (lift (shift_rows [5] [[2; -3]])) =
    stable_chunkwise_attention 2 (lift [[1 / 4; 3 / 4]]) (lift [[2; -3]]).
Proof.
  apply (attention_invariant_under_row_shift 1 2 [[1 / 4; 3 / 4]] [[2; -3]] [5] 2).
  - solve_rect.
  - solve_rect.
  - reflexivity.
Defined.

(** ** The stable variant is the exact distribution *)

Lemma st_den_factor (t : nat) (w : Z) (u : nat -> R) (k : nat) :
  st_den t w u k =
  exp (- st_max t w u k) *
  Zsum (Z.of_nat k - w + 1) (Z.of_nat k) (clip t 0 (fun l => exp (u l))).
Proof.
  unfold st_den. rewrite <- Zsum_scal. apply Zsum_ext. intros z _.
  rewrite <- clip_scal. apply clip_ext. intros l _.
  rewrite <- exp_plus. f_equal. lra.
Qed.

Lemma st_out_exact (t : nat) (w : Z) (alpha u : nat -> R) (j : nat) :
  (1 <= w)%Z -> st_out t w alpha u j = beta t w alpha u j.
Proof.
  intros Hw. unfold st_out, beta. apply Zsum_ext. intros z _. apply clip_ext.
  intros k Hk. pose proof (st_den_pos t w u k Hw Hk) as Hd.
  rewrite st_den_factor in *.
  pose proof (exp_pos (- st_max t w u k)) as He.
  set (S := Zsum _ _ _) in *.
  assert (HS : 0 < S) by nra.
  replace (u j - st_max t w u k) with (u j + - st_max t w u k) by lra.
  rewrite exp_plus. field. lra.
Qed.

(** ** Logits of large range: one worked input *)

Lemma exp_minus_1e10 : 0 < exp (-10000000000 - 0) < 1 / 10000000000.
Proof.
  split; [apply exp_pos|].
  replace (-10000000000 - 0) with (Ropp 10000000000) by lra.
  rewrite exp_Ropp.
  pose proof (exp_ineq1 10000000000 ltac:(lra)) as H.
  apply (Rmult_lt_reg_r (exp 10000000000)); [apply exp_pos|].
  rewrite Rinv_l by (apply Rgt_not_eq, exp_pos). lra.
Qed.

Lemma eff_out_large_range :
  eff_out 2 2 (at2 [[1 / 2; 1 / 2]] 0) (at2 [[0; -10000000000]] 0) 1 = 1 / 200002.
Proof.
  unfold eff_out, eff_den, eff_exp, Zsum, zrange. simpl.
  unfold clip, at2. simpl.
  rewrite (Rmax_left 0 (-10000000000)) by lra.
  replace (0 - 0) with 0 by lra. rewrite exp_0.
  pose proof exp_minus_1e10 as Ht.
  rewrite (Rmax_left 1 floor) by (unfold floor; lra).
  rewrite (Rmax_right (exp (-10000000000 - 0)) floor) by (unfold floor; lra).
  unfold floor. field.
Qed.

Lemma st_out_large_range :
  0 <= st_out 2 2 (at2 [[1 / 2; 1 / 2]] 0) (at2 [[0; -10000000000]] 0) 1
    <= 1 / 10000000000.
Proof.
  unfold st_out, st_den, st_max, window_max, Zsum, zrange. simpl.
  unfold clip, at2. simpl.
  rewrite (Rmax_left 0 (-10000000000)) by lra.
  replace (0 - 0) with 0 by lra. rewrite exp_0.
  pose proof exp_minus_1e10 as Ht. set (e := exp (-10000000000 - 0)) in *.
  assert (Hi : 0 < / (1 + (e + 0)) <= 1).
  { split; [apply Rinv_0_lt_compat; lra|].
    rewrite <- Rinv_1 at 2. apply Rinv_le_contravar; lra. }
  unfold Rdiv. set (v := / (1 + (e + 0))) in *. nra.
Qed.

(** C2.  There is an input, a logit of one row lowered by [1e10], on which
    the two functions both return an array (neither raises) and the arrays
    differ measurably: [np.allclose] rejects the pair.  On it the stable variant
    returns the exact chunkwise distribution [beta], and the efficient
    variant, whose clamp acts, is off from it by more than [1e-6] at one
    entry. *)
Theorem efficient_diverges_from_stable :
  exists (emit_probs softmax_logits : list (list R)) (chunk_size : Z)
         (efficient stable : list (list R)),
    rect 1 2 emit_probs /\ rect 1 2 softmax_logits /\
    (forall i, (i < 1)%nat -> Rsum (nth i emit_probs []) = 1) /\
    efficient_chunkwise_attention chunk_size (lift emit_probs) (lift softmax_logits) =
      Ok (lift efficient) /\
    stable_chunkwise_attention chunk_size (lift emit_probs) (lift softmax_logits) =
      Ok (lift stable) /\
    ~ allclose efficient stable /\
    (forall i j, (i < 1)%nat -> (j < 2)%nat ->
       at2 stable i j =
       beta 2 chunk_size (at2 emit_probs i) (at2 softmax_logits i) j) /\
    (exists i j, (i < 1)%nat /\ (j < 2)%nat /\
       Rabs (at2 efficient i j -
             beta 2 chunk_size (at2 emit_probs i) (at2 softmax_logits i) j)
       > 1 / 1000000).
Proof.
  exists [[1 / 2; 1 / 2]], [[0; -10000000000]], 2%Z.
  exists (tab2 1 2 (fun i j =>
            eff_out 2 2 (at2 [[1 / 2; 1 / 2]] i) (at2 [[0; -10000000000]] i) j)).
  exists (tab2 1 2 (fun i j =>
            st_out 2 2 (at2 [[1 / 2; 1 / 2]] i) (at2 [[0; -10000000000]] i) j)).
  assert (Ha : rect 1 2 [[1 / 2; 1 / 2]]) by solve_rect.
  assert (Hu : rect 1 2 [[0; -10000000000]]) by solve_rect.
  pose proof eff_out_large_range as He. pose proof st_out_large_range as Hs.
  split; [exact Ha|]. split; [exact Hu|].
  split. { intros [|i] Hi; [simpl; lra|lia]. }
  split. { apply (efficient_lift 1 2); (assumption || lia). }
  split. { apply (stable_lift 1 2); (assumption || lia). }
  split.
  { intros Hclose.
    specialize (Hclose 0%nat 1%nat ltac:(simpl; lia) ltac:(simpl; lia)).
    rewrite !at2_tab2 in Hclose by lia.
    rewrite He in Hclose.
    set (s := st_out _ _ _ _ _) in *.
    rewrite (Rabs_right s) in Hclose by lra.
    rewrite Rabs_right in Hclose by lra. lra. }
  split.
  { intros i j Hi Hj. rewrite at2_tab2 by assumption. apply st_out_exact. lia. }
  exists 0%nat, 1%nat. split; [lia|]. split; [lia|].
  rewrite at2_tab2 by lia. rewrite <- st_out_exact by lia. rewrite He.
  set (s := st_out _ _ _ _ _) in *.
  rewrite Rabs_right by lra. lra.
Qed.

(** ** Inputs of different shapes *)

Lemma dims_agree_iff (m n : nat) :
  dims_agree m n = true <-> m = n \/ m = 1%nat \/ n = 1%nat.
Proof.
  unfold dims_agree. rewrite !orb_true_iff, !Nat.eqb_eq. tauto.
Qed.

Lemma bdim_positive (m n : nat) : (1 <= m)%nat -> (1 <= n)%nat -> (1 <= bdim m n)%nat.
Proof. unfold bdim. destruct (m =? 1)%nat; lia. Qed.

Lemma dims_agree_bdim_r (m n : nat) :
  dims_agree m n = true -> dims_agree n (bdim m n) = true.
Proof.
  intros H. apply dims_agree_iff in H. apply dims_agree_iff. unfold bdim.
  destruct (Nat.eqb_spec m 1); lia.
Qed.

Lemma dims_agree_bdim_l (m n : nat) :
  dims_agree m n = true -> dims_agree (bdim m n) n = true.
Proof.
  intros H. apply dims_agree_iff in H. apply dims_agree_iff. unfold bdim.
  destruct (Nat.eqb_spec m 1); lia.
Qed.

Lemma bzip_tab_broadcast {A B C : Type} (f : A -> B -> C) (m n : nat)
    (g : nat -> A) (h : nat -> B) :
  dims_agree m n = true ->
  bzip f (tab m g) (tab n h) =
  tab (bdim m n) (fun i => f (g (bidx m i)) (h (bidx n i))).
Proof.
  intros H. apply dims_agree_iff in H. unfold bdim, bidx.
  destruct (Nat.eqb_spec m 1) as [-> |Hm].
  - change (tab 1 g) with [g 0%nat]. rewrite bzip_single_l, map_tab.
    apply tab_ext. intros i Hi.
    destruct (Nat.eqb_spec n 1); [replace i with 0%nat by lia|]; reflexivity.
  - destruct (Nat.eqb_spec n 1) as [-> |Hn].
    + change (tab 1 h) with [h 0%nat]. now rewrite bzip_single_r, map_tab.
    + replace n with m by lia. apply bzip_tab.
Qed.

Lemma broadcast2_broadcast (f : xreal -> xreal -> xreal) (b1 t1 b2 t2 : nat)
    (g h : nat -> nat -> xreal) :
  (1 <= b1)%nat -> (1 <= b2)%nat ->
  dims_agree b1 b2 = true -> dims_agree t1 t2 = true ->
  broadcast2 f (tab2 b1 t1 g) (tab2 b2 t2 h) =
  Ok (tab2 (bdim b1 b2) (bdim t1 t2)
        (fun i j => f (g (bidx b1 i) (bidx t1 j)) (h (bidx b2 i) (bidx t2 j)))).
Proof.
  intros Hb1 Hb2 Hb Ht. unfold broadcast2. rewrite !shape2_tab2.
  destruct (Nat.eqb_spec b1 0); [lia|]. destruct (Nat.eqb_spec b2 0); [lia|].
  rewrite Hb, Ht. cbn [andb]. f_equal. unfold tab2.
  rewrite bzip_tab_broadcast by assumption. apply tab_ext. intros i _.
  now apply bzip_tab_broadcast.
Qed.

Lemma broadcast2_mismatch (f : xreal -> xreal -> xreal) (b1 t1 b2 t2 : nat)
    (g h : nat -> nat -> xreal) :
  (1 <= b1)%nat -> (1 <= b2)%nat ->
  dims_agree b1 b2 && dims_agree t1 t2 = false ->
  broadcast2 f (tab2 b1 t1 g) (tab2 b2 t2 h) = Raise shape_error.
Proof.
  intros Hb1 Hb2 H. unfold broadcast2. rewrite !shape2_tab2.
  destruct (Nat.eqb_spec b1 0); [lia|]. destruct (Nat.eqb_spec b2 0); [lia|].
  now rewrite H.
Qed.

Lemma shape3_tab3_positive {A : Type} (b t c : nat) (g : nat -> nat -> nat -> A) :
  (1 <= b)%nat -> (1 <= t)%nat -> shape3 (tab3 b t c g) = (b, t, c).
Proof.
  intros Hb Ht. rewrite shape3_tab3.
  destruct (Nat.eqb_spec b 0); [lia|]. destruct (Nat.eqb_spec t 0); [lia|].
  reflexivity.
Qed.

Lemma broadcast3_broadcast (f : xreal -> xreal -> xreal) (b1 t1 b2 t2 c : nat)
    (g h : nat -> nat -> nat -> xreal) :
  (1 <= b1)%nat -> (1 <= t1)%nat -> (1 <= b2)%nat -> (1 <= t2)%nat ->
  dims_agree b1 b2 = true -> dims_agree t1 t2 = true ->
  broadcast3 f (tab3 b1 t1 c g) (tab3 b2 t2 c h) =
  Ok (tab3 (bdim b1 b2) (bdim t1 t2) c
        (fun i j s => f (g (bidx b1 i) (bidx t1 j) s) (h (bidx b2 i) (bidx t2 j) s))).
Proof.
  intros Hb1 Ht1 Hb2 Ht2 Hb Ht. unfold broadcast3.
  rewrite !shape3_tab3_positive by assumption.
  rewrite Hb, Ht, dims_agree_refl. cbn [andb]. f_equal. unfold tab3, tab2.
  rewrite bzip_tab_broadcast by assumption. apply tab_ext. intros i _.
  rewrite bzip_tab_broadcast by assumption. apply tab_ext. intros j _.
  apply bzip_tab.
Qed.

Lemma broadcast3_mismatch (f : xreal -> xreal -> xreal) (b1 t1 b2 t2 c : nat)
    (g h : nat -> nat -> nat -> xreal) :
  (1 <= b1)%nat -> (1 <= t1)%nat -> (1 <= b2)%nat -> (1 <= t2)%nat ->
  dims_agree b1 b2 && dims_agree t1 t2 = false ->
  broadcast3 f (tab3 b1 t1 c g) (tab3 b2 t2 c h) = Raise shape_error.
Proof.
  intros Hb1 Ht1 Hb2 Ht2 H. unfold broadcast3.
  rewrite !shape3_tab3_positive by assumption. now rewrite H.
Qed.

Lemma efficient_two_shapes (b1 t1 b2 t2 : nat) (alpha u : nat -> nat -> R) (w : Z) :
  (1 <= b1)%nat -> (1 <= b2)%nat -> (1 <= w)%Z ->
  if dims_agree b1 b2 && dims_agree t1 t2
  then exists probs,
      efficient_chunkwise_attention w (tab2 b1 t1 (fun i j => Fin (alpha i j)))
                                      (tab2 b2 t2 (fun i j => Fin (u i j))) =
      Ok probs
  else efficient_chunkwise_attention w (tab2 b1 t1 (fun i j => Fin (alpha i j)))
                                       (tab2 b2 t2 (fun i j => Fin (u i j))) =
       Raise shape_error.
Proof.
  intros Hb1 Hb2 Hw. unfold efficient_chunkwise_attention.
  rewrite efficient_softmax_exp_real. cbn [bind].
  rewrite moving_sum_real by lia. cbn [bind].
  destruct (dims_agree b1 b2 && dims_agree t1 t2) eqn:E.
  - apply andb_true_iff in E. destruct E as [Eb Et].
    rewrite broadcast2_broadcast by assumption. cbn [bind].
    rewrite moving_sum_tab2 by lia. cbn [bind].
    rewrite broadcast2_broadcast;
      [eexists; reflexivity|assumption|now apply bdim_positive
      |now apply dims_agree_bdim_r|now apply dims_agree_bdim_r].
  - now rewrite broadcast2_mismatch.
Qed.

Lemma stable_two_shapes (b1 t1 b2 t2 : nat) (alpha u : nat -> nat -> R) (w : Z) :
  (1 <= b1)%nat -> (1 <= t1)%nat -> (1 <= b2)%nat -> (1 <= t2)%nat -> (1 <= w)%Z ->
  if dims_agree b1 b2 && dims_agree t1 t2
  then exists probs,
      stable_chunkwise_attention w (tab2 b1 t1 (fun i j => Fin (alpha i j)))
                                   (tab2 b2 t2 (fun i j => Fin (u i j))) =
      Ok probs
  else stable_chunkwise_attention w (tab2 b1 t1 (fun i j => Fin (alpha i j)))
                                    (tab2 b2 t2 (fun i j => Fin (u i j))) =
       Raise shape_error.
Proof.
  intros Hb1 Ht1 Hb2 Ht2 Hw. rewrite stable_logits_part by assumption.
  rewrite frame_pad_end_tab2 by assumption.
  destruct (dims_agree b1 b2 && dims_agree t1 t2) eqn:E.
  - apply andb_true_iff in E. destruct E as [Eb Et].
    rewrite broadcast3_broadcast by assumption. cbn [bind].
    rewrite broadcast3_broadcast;
      [eexists; reflexivity
      |now apply bdim_positive|now apply bdim_positive|assumption|assumption
      |now apply dims_agree_bdim_l|now apply dims_agree_bdim_l].
  - now rewrite broadcast3_mismatch.
Qed.

Lemma small_range_example (i j : nat) :
  (i < 1)%nat -> (j < 2)%nat ->
  1 / 100000 <= exp (at2 [[0; -1]] i j - list_max (nth i [[0; -1]] [])).
Proof.
  intros Hi Hj. destruct i as [|i]; [|lia].
  unfold at2. cbn [nth list_max].
  rewrite (Rmax_left 0 (-1)) by lra.
  destruct j as [|[|j]]; [| |lia]; cbn [nth].
  - replace (0 - 0) with 0 by lra. rewrite exp_0. lra.
  - replace (-1 - 0) with (Ropp 1) by lra. rewrite exp_Ropp.
    pose proof exp_le_3 as H3. pose proof (exp_pos 1) as Hp.
    assert (/ 3 <= / exp 1) by (apply Rinv_le_contravar; lra). lra.
Qed.

Lemma efficient_agrees_with_stable_witness :
  exists probs,
    rect 1 2 probs /\
    efficient_chunkwise_attention 2 (lift [[1 / 2; 1 / 2]]) (lift [[0; -1]]) =
      Ok (lift probs) /\
    stable_chunkwise_attention 2 (lift [[1 / 2; 1 / 2]]) (lift [[0; -1]]) =
      Ok (lift probs).
Proof.
  apply (efficient_agrees_with_stable 1 2 [[1 / 2; 1 / 2]] [[0; -1]] 2).
  - solve_rect.
  - solve_rect.
  - lia.
  - exact small_range_example.
Defined.

Lemma unit_interval_example (i j : nat) :
  (i < 1)%nat -> (j < 2)%nat -> 0 <= at2 [[1 / 4; 3 / 4]] i j <= 1.
Proof.
  intros Hi Hj. destruct i as [|i]; [|lia].
  destruct j as [|[|j]]; [| |lia]; unfold at2; cbn [nth]; lra.
Qed.

Lemma row_total_example (i : nat) :
  (i < 1)%nat -> Rsum (nth i [[1 / 4; 3 / 4]] []) = 1.
Proof.
  intros Hi. destruct i as [|i]; [|lia]. cbn [nth Rsum fold_right]. lra.
Qed.

Lemma attention_outputs_in_unit_interval_witness :
  exists efficient stable,
    efficient_chunkwise_attention 2 (lift [[1 / 4; 3 / 4]]) (lift [[2; -3]]) =
      Ok (lift efficient) /\
    stable_chunkwise_attention 2 (lift [[1 / 4; 3 / 4]]) (lift [[2; -3]]) =
      Ok (lift stable) /\
    rect 1 2 efficient /\ rect 1 2 stable /\
    forall i j, (i < 1)%nat -> (j < 2)%nat ->
      0 <= at2 efficient i j <= 1 /\ 0 <= at2 stable i j <= 1.
Proof.
  apply (attention_outputs_in_unit_interval 1 2 [[1 / 4; 3 / 4]] [[2; -3]] 2).
  - solve_rect.
  - solve_rect.
  - lia.
  - exact unit_interval_example.
  - exact row_total_example.
Defined.

(** ** Malformed input *)

(** C8, as stated, fails: [emit_probs] of shape (1, 2) against
    [softmax_logits] of shape (2, 2) is a shape mismatch, and both attention
    functions return an array of shape (2, 2) for it. *)
Lemma shape_mismatch_returns_value :
  shape2 (lift [[1 / 2; 1 / 2]]) <> shape2 (lift [[0; 0]; [0; 0]]) /\
  (exists probs,
     efficient_chunkwise_attention 1 (lift [[1 / 2; 1 / 2]]) (lift [[0; 0]; [0; 0]])
       = Ok probs /\
     shape2 probs = (2%nat, 2%nat)) /\
  (exists probs,
     stable_chunkwise_attention 1 (lift [[1 / 2; 1 / 2]]) (lift [[0; 0]; [0; 0]])
       = Ok probs /\
     shape2 probs = (2%nat, 2%nat)).
Proof.
  split; [discriminate|]. split.
  - eexists. split.
    + unfold efficient_chunkwise_attention, efficient_softmax_exp. simpl.
      reflexivity.
    + reflexivity.
  - eexists. split.
    + unfold stable_chunkwise_attention. simpl. reflexivity.
    + reflexivity.
Qed.

(** C8, amended.  The functions check nothing themselves; what a malformed
    input meets is the operation it reaches.  A negative [back] or [forward]
    of [moving_sum], a non-positive [w] of [moving_max] and a non-positive
    [chunk_size] of either attention function are refused by the padding step
    with an invalid-argument error, whatever the arrays.  With a positive
    chunk size, [emit_probs] and [softmax_logits] of non-empty shapes
    (b1, t1) and (b2, t2) are refused, with an invalid-argument error, exactly
    when the two shapes do not broadcast against each other; shapes that
    differ and broadcast give a value. *)
Theorem malformed_input_outcomes :
  (forall (x : mat) (back forward : Z),
      (back < 0 \/ forward < 0)%Z ->
      moving_sum x back forward = Raise negative_padding) /\
  (forall (x : mat) (w : Z),
      (w <= 0)%Z -> moving_max x w = Raise negative_padding) /\
  (forall (chunk_size : Z) (emit_probs softmax_logits : mat),
      (chunk_size <= 0)%Z ->
      efficient_chunkwise_attention chunk_size emit_probs softmax_logits =
        Raise negative_padding /\
      stable_chunkwise_attention chunk_size emit_probs softmax_logits =
        Raise negative_padding) /\
  (forall (b1 t1 b2 t2 : nat) (emit_probs softmax_logits : list (list R))
          (chunk_size : Z),
      rect b1 t1 emit_probs -> rect b2 t2 softmax_logits ->
      (1 <= b1)%nat -> (1 <= t1)%nat -> (1 <= b2)%nat -> (1 <= t2)%nat ->
      (1 <= chunk_size)%Z ->
      if dims_agree b1 b2 && dims_agree t1 t2
      then (exists probs,
               efficient_chunkwise_attention chunk_size (lift emit_probs)
                 (lift softmax_logits) = Ok probs) /\
           (exists probs,
               stable_chunkwise_attention chunk_size (lift emit_probs)
                 (lift softmax_logits) = Ok probs)
      else efficient_chunkwise_attention chunk_size (lift emit_probs)
             (lift softmax_logits) = Raise shape_error /\
           stable_chunkwise_attention chunk_size (lift emit_probs)
             (lift softmax_logits) = Raise shape_error).
Proof.
  split; [exact moving_sum_negative|].
  split; [exact moving_max_nonpositive|].
  split.
  - intros w a u Hw. split;
      [now apply efficient_nonpositive|now apply stable_nonpositive].
  - intros b1 t1 b2 t2 a u w Ha Hu Hb1 Ht1 Hb2 Ht2 Hw.
    rewrite (lift_rect b1 t1 a Ha), (lift_rect b2 t2 u Hu).
    pose proof (efficient_two_shapes b1 t1 b2 t2 (at2 a) (at2 u) w Hb1 Hb2 Hw) as He.
    pose proof (stable_two_shapes b1 t1 b2 t2 (at2 a) (at2 u) w
                  Hb1 Ht1 Hb2 Ht2 Hw) as Hs.
    destruct (dims_agree b1 b2 && dims_agree t1 t2); split; assumption.
Qed.

Lemma malformed_input_outcomes_witness :
  moving_sum (lift [[1; 2]]) (-1) 0 = Raise negative_padding /\
  moving_max (lift [[1; 2]]) 0 = Raise negative_padding /\
  (efficient_chunkwise_attention 0 (lift [[1 / 2; 1 / 2]]) (lift [[0; 0]]) =
     Raise negative_padding /\
   stable_chunkwise_attention 0 (lift [[1 / 2; 1 / 2]]) (lift [[0; 0]]) =
     Raise negative_padding) /\
  (efficient_chunkwise_attention 1 (lift [[1 / 3; 1 / 3; 1 / 3]]) (lift [[0; 0]]) =
     Raise shape_error /\
   stable_chunkwise_attention 1 (lift [[1 / 3; 1 / 3; 1 / 3]]) (lift [[0; 0]]) =
     Raise shape_error).
Proof.
  destruct malformed_input_outcomes as (Hsum & Hmax & Hchunk & Hshape).
  split; [apply Hsum; lia|].
  split; [apply Hmax; lia|].
  split; [apply Hchunk; lia|].
  apply (Hshape 1%nat 3%nat 1%nat 2%nat [[1 / 3; 1 / 3; 1 / 3]] [[0; 0]] 1%Z).
  - solve_rect.
  - solve_rect.
  - lia.
  - lia.
  - lia.
  - lia.
  - lia.
Defined.

(** * Further properties of the notebook's code *)

(** ** Windows read as sums over the whole row *)

Lemma Rsum_tab_plus (n : nat) (f g : nat -> R) :
  Rsum (tab n (fun k => f k + g k)) = Rsum (tab n f) + Rsum (tab n g).
Proof. apply Rsum_map_plus. Qed.

Lemma Rsum_tab_scal (n : nat) (c : R) (f : nat -> R) :
  Rsum (tab n (fun k => c * f k)) = c * Rsum (tab n f).
Proof. apply Rsum_map_scal. Qed.

Lemma Rsum_tab_ext (n : nat) (f g : nat -> R) :
  (forall k, (k < n)%nat -> f k = g k) -> Rsum (tab n f) = Rsum (tab n g).
Proof. intros H. f_equal. now apply tab_ext. Qed.

Lemma Rsum_tab_zero (n : nat) : Rsum (tab n (fun _ => 0)) = 0.
Proof. apply Rsum_map_zero. reflexivity. Qed.

Lemma Rsum_tab_swap (n m : nat) (F : nat -> nat -> R) :
  Rsum (tab n (fun j => Rsum (tab m (F j)))) =
  Rsum (tab m (fun k => Rsum (tab n (fun j => F j k)))).
Proof.
  induction n as [|n IH].
  - cbn [tab seq map Rsum fold_right]. now rewrite Rsum_tab_zero.
  - rewrite tab_snoc, Rsum_app, IH. cbn [Rsum fold_right].
    rewrite Rplus_0_r, <- Rsum_tab_plus. apply Rsum_tab_ext. intros k _.
    rewrite tab_snoc, Rsum_app. cbn [Rsum fold_right]. lra.
Qed.

Lemma Rsum_exactly_once (c : Z) (a : R) (zs : list Z) :
  NoDup zs -> In c zs ->
  Rsum (map (fun z => if (z =? c)%Z then a else 0) zs) = a.
Proof.
  intros Hnd. induction Hnd as [|z zs Hz Hnd IH]; intros Hin; [destruct Hin|].
  simpl. destruct (Z.eqb_spec z c) as [-> |Hne].
  - rewrite Rsum_map_zero; [lra|].
    intros y Hy. destruct (Z.eqb_spec y c) as [-> |]; [contradiction|reflexivity].
  - destruct Hin as [-> |Hin]; [contradiction|]. rewrite IH by assumption. lra.
Qed.

Lemma Zsum_at (lo hi c : Z) (a : R) :
  Zsum lo hi (fun z => if (z =? c)%Z then a else 0) =
  if ((lo <=? c) && (c <=? hi))%Z then a else 0.
Proof.
  unfold Zsum.
  destruct (Z.leb_spec lo c), (Z.leb_spec c hi); cbn [andb];
    try (apply Rsum_map_zero; intros y Hy; apply In_zrange in Hy;
         destruct (Z.eqb_spec y c); [lia|reflexivity]).
  apply Rsum_exactly_once; [apply zrange_NoDup|apply In_zrange; lia].
Qed.

(** A window of a row is the sum, over the row, of the entries whose
    position lies in the window. *)
Lemma Zsum_clip_row (t : nat) (g : nat -> R) (lo hi : Z) :
  Zsum lo hi (clip t 0 g) =
  Rsum (tab t (fun k =>
          if ((lo <=? Z.of_nat k) && (Z.of_nat k <=? hi))%Z then g k else 0)).
Proof.
  induction t as [|t IH].
  - cbn [tab seq map Rsum fold_right]. apply Rsum_map_zero. intros z _.
    unfold clip. destruct (Z.leb_spec 0 z), (Z.ltb_spec z (Z.of_nat 0));
      try reflexivity; lia.
  - rewrite (Zsum_ext _ _ _ (fun z => clip t 0 g z +
                                      (if (z =? Z.of_nat t)%Z then g t else 0)))
      by (intros; apply clip_S).
    rewrite Zsum_plus, IH, Zsum_at, tab_snoc, Rsum_app.
    cbn [Rsum fold_right]. lra.
Qed.

(** Summing, over the positions [j] of a row, a window around [j] is summing,
    over the positions [k], the mirrored window around [k]. *)
Lemma window_sums_swap (t : nat) (back forward : Z) (F : nat -> nat -> R) :
  Rsum (tab t (fun j =>
          Zsum (Z.of_nat j - back) (Z.of_nat j + forward) (clip t 0 (F j)))) =
  Rsum (tab t (fun k =>
          Zsum (Z.of_nat k - forward) (Z.of_nat k + back)
               (clip t 0 (fun j => F j k)))).
Proof.
  rewrite (Rsum_tab_ext t _ _ (fun j _ => Zsum_clip_row t (F j) _ _)).
  rewrite Rsum_tab_swap. apply Rsum_tab_ext. intros k _.
  rewrite Zsum_clip_row. apply Rsum_tab_ext. intros j _.
  destruct (Z.leb_spec (Z.of_nat j - back) (Z.of_nat k)),
    (Z.leb_spec (Z.of_nat k) (Z.of_nat j + forward)),
    (Z.leb_spec (Z.of_nat k - forward) (Z.of_nat j)),
    (Z.leb_spec (Z.of_nat j) (Z.of_nat k + back)); cbn [andb];
    try reflexivity; lia.
Qed.

Lemma nth_tab2_row {A : Type} (b t : nat) (g : nat -> nat -> A) (i : nat) :
  (i < b)%nat -> nth i (tab2 b t g) [] = tab t (g i).
Proof. intros Hi. unfold tab2. now rewrite nth_tab. Qed.

(** X1.  The backward and forward windows of [moving_sum] are adjoint: on
    real arrays [x] and [y] of one shape, summing along a row [y] times the
    moving sum of [x] over [back, forward] gives the same as summing [x]
    times the moving sum of [y] over [forward, back]. *)
Theorem moving_sum_adjoint (b t : nat) (x y : list (list R)) (back forward : Z) :
  rect b t x -> rect b t y -> (0 <= back)%Z -> (0 <= forward)%Z ->
  exists sx sy,
    moving_sum (lift x) back forward = Ok (lift sx) /\
    moving_sum (lift y) forward back = Ok (lift sy) /\
    forall i, (i < b)%nat ->
      Rsum (zip_with Rmult (nth i y []) (nth i sx [])) =
      Rsum (zip_with Rmult (nth i x []) (nth i sy [])).
Proof.
  intros Hx Hy Hb Hf. eexists. eexists.
  split; [now apply (moving_sum_lift b t)|].
  split; [now apply (moving_sum_lift b t)|].
  intros i Hi. rewrite !nth_tab2_row by assumption.
  rewrite <- (tab_at2_row b t x i Hx Hi), <- (tab_at2_row b t y i Hy Hi).
  rewrite !zip_with_tab.
  rewrite (Rsum_tab_ext t _ (fun j =>
             Zsum (Z.of_nat j - back) (Z.of_nat j + forward)
                  (clip t 0 (fun k => at2 y i j * at2 x i k)))).
  2:{ intros j _. rewrite <- Zsum_scal. apply Zsum_ext. intros z _.
      now rewrite clip_scal. }
  rewrite (window_sums_swap t back forward (fun j k => at2 y i j * at2 x i k)).
  apply Rsum_tab_ext. intros k _. rewrite <- Zsum_scal. apply Zsum_ext.
  intros z _. rewrite <- clip_scal. unfold clip. destruct (_ && _); lra.
Qed.

Lemma moving_sum_adjoint_witness :
  exists sx sy,
    moving_sum (lift [[1; 2; 3]]) 1 0 = Ok (lift sx) /\
    moving_sum (lift [[5; 7; 11]]) 0 1 = Ok (lift sy) /\
    forall i, (i < 1)%nat ->
      Rsum (zip_with Rmult (nth i [[5; 7; 11]] []) (nth i sx [])) =
      Rsum (zip_with Rmult (nth i [[1; 2; 3]] []) (nth i sy [])).
Proof.
  apply (moving_sum_adjoint 1 3 [[1; 2; 3]] [[5; 7; 11]] 1 0).
  - solve_rect.
  - solve_rect.
  - lia.
  - lia.
Defined.

(** ** What the attention functions do to the mass of [emit_probs] *)

Lemma eff_den_nonzero (t : nat) (w : Z) (u : nat -> R) (k : nat) :
  (1 <= w)%Z -> (k < t)%nat -> eff_den t w u k <> 0.
Proof.
  intros Hw Hk. apply Rgt_not_eq.
  eapply Rlt_le_trans; [apply floor_pos|now apply eff_den_floor].
Qed.

Lemma eff_out_total (t : nat) (w : Z) (alpha u : nat -> R) :
  (1 <= w)%Z -> Rsum (tab t (eff_out t w alpha u)) = Rsum (tab t alpha).
Proof.
  intros Hw. unfold eff_out.
  rewrite (Rsum_tab_ext t _ (fun j =>
             Zsum (Z.of_nat j - 0) (Z.of_nat j + (w - 1))
                  (clip t 0 (fun k => eff_exp t u j * (alpha k / eff_den t w u k))))).
  2:{ intros j _. rewrite <- Zsum_scal. apply Zsum_ext. intros z _.
      now rewrite clip_scal. }
  rewrite (window_sums_swap t 0 (w - 1)
             (fun j k => eff_exp t u j * (alpha k / eff_den t w u k))).
  apply Rsum_tab_ext. intros k Hk.
  rewrite (Zsum_ext _ _ _ (fun z => alpha k / eff_den t w u k *
                                    clip t 0 (eff_exp t u) z)).
  2:{ intros z _. rewrite <- clip_scal. unfold clip. destruct (_ && _); lra. }
  rewrite Zsum_scal. fold (eff_den t w u k).
  field. now apply eff_den_nonzero.
Qed.

Lemma st_out_total (t : nat) (w : Z) (alpha u : nat -> R) :
  (1 <= w)%Z -> Rsum (tab t (st_out t w alpha u)) = Rsum (tab t alpha).
Proof.
  intros Hw. unfold st_out.
  rewrite (Rsum_tab_ext t _ (fun j =>
             Zsum (Z.of_nat j - 0) (Z.of_nat j + (w - 1))
                  (clip t 0 (fun k => alpha k * exp (u j - st_max t w u k) /
                                      st_den t w u k)))).
  2:{ intros j _. f_equal; lia. }
  rewrite (window_sums_swap t 0 (w - 1)
             (fun j k => alpha k * exp (u j - st_max t w u k) / st_den t w u k)).
  apply Rsum_tab_ext. intros k Hk.
  rewrite (Zsum_ext _ _ _ (fun z => alpha k / st_den t w u k *
                             clip t 0 (fun l => exp (u l - st_max t w u k)) z)).
  2:{ intros z _. rewrite <- clip_scal. unfold clip. destruct (_ && _);
      unfold Rdiv; ring. }
  rewrite Zsum_scal.
  replace (Z.of_nat k - (w - 1))%Z with (Z.of_nat k - w + 1)%Z by lia.
  replace (Z.of_nat k + 0)%Z with (Z.of_nat k) by lia.
  fold (st_den t w u k). pose proof (st_den_pos t w u k Hw Hk).
  field. lra.
Qed.

(** X2.  [efficient_chunkwise_attention] keeps the mass of every row: on real
    arrays of one shape and a positive chunk size, each row of the result
    sums to what the same row of [emit_probs] sums to (so to 1 when
    [emit_probs] is row-normalized), clamp or no clamp. *)
Theorem efficient_preserves_row_sums (b t : nat)
    (emit_probs softmax_logits : list (list R)) (chunk_size : Z) :
  rect b t emit_probs -> rect b t softmax_logits -> (1 <= chunk_size)%Z ->
  exists probs,
    efficient_chunkwise_attention chunk_size (lift emit_probs) (lift softmax_logits) =
      Ok (lift probs) /\
    rect b t probs /\
    forall i, (i < b)%nat -> Rsum (nth i probs []) = Rsum (nth i emit_probs []).
Proof.
  intros Ha Hu Hw. eexists.
  split; [now apply (efficient_lift b t)|]. split; [apply rect_tab2|].
  intros i Hi. rewrite nth_tab2_row by assumption.
  rewrite <- (tab_at2_row b t emit_probs i Ha Hi). now apply eff_out_total.
Qed.

Lemma efficient_preserves_row_sums_witness :
  exists probs,
    efficient_chunkwise_attention 2 (lift [[1 / 4; 3 / 4]]) (lift [[2; -3]]) =
      Ok (lift probs) /\
    rect 1 2 probs /\
    forall i, (i < 1)%nat -> Rsum (nth i probs []) = Rsum (nth i [[1 / 4; 3 / 4]] []).
Proof.
  apply (efficient_preserves_row_sums 1 2 [[1 / 4; 3 / 4]] [[2; -3]] 2).
  - solve_rect.
  - solve_rect.
  - lia.
Defined.

(** X3.  [stable_chunkwise_attention] keeps the mass of every row: each row
    of the result sums to what the same row of [emit_probs] sums to. *)
Theorem stable_preserves_row_sums (b t : nat)
    (emit_probs softmax_logits : list (list R)) (chunk_size : Z) :
  rect b t emit_probs -> rect b t softmax_logits -> (1 <= chunk_size)%Z ->
  exists probs,
    stable_chunkwise_attention chunk_size (lift emit_probs) (lift softmax_logits) =
      Ok (lift probs) /\
    rect b t probs /\
    forall i, (i < b)%nat -> Rsum (nth i probs []) = Rsum (nth i emit_probs []).
Proof.
  intros Ha Hu Hw. eexists.
  split; [now apply (stable_lift b t)|]. split; [apply rect_tab2|].
  intros i Hi. rewrite nth_tab2_row by assumption.
  rewrite <- (tab_at2_row b t emit_probs i Ha Hi). now apply st_out_total.
Qed.

Lemma stable_preserves_row_sums_witness :
  exists probs,
    stable_chunkwise_attention 2 (lift [[1 / 4; 3 / 4]]) (lift [[2; -3]]) =
      Ok (lift probs) /\
    rect 1 2 probs /\
    forall i, (i < 1)%nat -> Rsum (nth i probs []) = Rsum (nth i [[1 / 4; 3 / 4]] []).
Proof.
  apply (stable_preserves_row_sums 1 2 [[1 / 4; 3 / 4]] [[2; -3]] 2).
  - solve_rect.
  - solve_rect.
  - lia.
Defined.

(** ** Linearity in [emit_probs] *)

Lemma clip_div_plus (t : nat) (g h d : nat -> R) (z : Z) :
  clip t 0 (fun k => (g k + h k) / d k) z =
  clip t 0 (fun k => g k / d k) z + clip t 0 (fun k => h k / d k) z.
Proof. unfold clip. destruct (_ && _); unfold Rdiv; ring. Qed.

Lemma eff_out_plus (t : nat) (w : Z) (a a' u : nat -> R) (j : nat) :
  eff_out t w (fun k => a k + a' k) u j = eff_out t w a u j + eff_out t w a' u j.
Proof.
  unfold eff_out. rewrite <- Rmult_plus_distr_l, <- Zsum_plus. f_equal.
  apply Zsum_ext. intros z _. apply clip_div_plus.
Qed.

Lemma eff_out_scal (t : nat) (w : Z) (c : R) (a u : nat -> R) (j : nat) :
  eff_out t w (fun k => c * a k) u j = c * eff_out t w a u j.
Proof.
  unfold eff_out.
  rewrite (Zsum_ext _ _ _ (fun z => c * clip t 0 (fun k => a k / eff_den t w u k) z)).
  - rewrite Zsum_scal. ring.
  - intros z _. unfold clip. destruct (_ && _); unfold Rdiv; ring.
Qed.

Lemma st_out_plus (t : nat) (w : Z) (a a' u : nat -> R) (j : nat) :
  st_out t w (fun k => a k + a' k) u j = st_out t w a u j + st_out t w a' u j.
Proof.
  unfold st_out. rewrite <- Zsum_plus. apply Zsum_ext. intros z _.
  unfold clip. destruct (_ && _); unfold Rdiv; ring.
Qed.

Lemma st_out_scal (t : nat) (w : Z) (c : R) (a u : nat -> R) (j : nat) :
  st_out t w (fun k => c * a k) u j = c * st_out t w a u j.
Proof.
  unfold st_out. rewrite <- Zsum_scal. apply Zsum_ext. intros z _.
  unfold clip. destruct (_ && _); unfold Rdiv; ring.
Qed.

(** X4.  [efficient_chunkwise_attention] is linear in [emit_probs]: for one
    array of logits, the result on [a + a'] is the sum of the results on [a]
    and [a'], and the result on [c * a] is [c] times the result on [a]. *)
Theorem efficient_linear_in_emit_probs (b t : nat)
    (a a' softmax_logits : list (list R)) (c : R) (chunk_size : Z) :
  rect b t a -> rect b t a' -> rect b t softmax_logits -> (1 <= chunk_size)%Z ->
  exists p p',
    efficient_chunkwise_attention chunk_size (lift a) (lift softmax_logits) =
      Ok (lift p) /\
    efficient_chunkwise_attention chunk_size (lift a') (lift softmax_logits) =
      Ok (lift p') /\
    efficient_chunkwise_attention chunk_size (lift (madd a a')) (lift softmax_logits) =
      Ok (lift (madd p p')) /\
    efficient_chunkwise_attention chunk_size (lift (mscale c a)) (lift softmax_logits) =
      Ok (lift (mscale c p)).
Proof.
  intros Ha Ha' Hu Hw. eexists. eexists.
  split; [now apply (efficient_lift b t)|].
  split; [now apply (efficient_lift b t)|].
  rewrite (lift_rect b t softmax_logits Hu).
  rewrite (madd_rect b t a a' Ha Ha'), (mscale_rect b t c a Ha).
  rewrite !(madd_rect b t), !(mscale_rect b t) by apply rect_tab2.
  rewrite !lift_tab2, !efficient_real by assumption.
  split; f_equal; apply tab2_ext; intros i j Hi Hj;
    rewrite !at2_tab2 by assumption; f_equal.
  - apply eff_out_plus.
  - apply eff_out_scal.
Qed.

Lemma efficient_linear_in_emit_probs_witness :
  exists p p',
    efficient_chunkwise_attention 2 (lift [[1; 2]]) (lift [[2; -3]]) = Ok (lift p) /\
    efficient_chunkwise_attention 2 (lift [[3; 0]]) (lift [[2; -3]]) = Ok (lift p') /\
    efficient_chunkwise_attention 2 (lift (madd [[1; 2]] [[3; 0]])) (lift [[2; -3]]) =
      Ok (lift (madd p p')) /\
    efficient_chunkwise_attention 2 (lift (mscale 5 [[1; 2]])) (lift [[2; -3]]) =
      Ok (lift (mscale 5 p)).
Proof.
  apply (efficient_linear_in_emit_probs 1 2 [[1; 2]] [[3; 0]] [[2; -3]] 5 2).
  - solve_rect.
  - solve_rect.
  - solve_rect.
  - lia.
Defined.

(** X5.  [stable_chunkwise_attention] is linear in [emit_probs]. *)
Theorem stable_linear_in_emit_probs (b t : nat)
    (a a' softmax_logits : list (list R)) (c : R) (chunk_size : Z) :
  rect b t a -> rect b t a' -> rect b t softmax_logits -> (1 <= chunk_size)%Z ->
  exists p p',
    stable_chunkwise_attention chunk_size (lift a) (lift softmax_logits) =
      Ok (lift p) /\
    stable_chunkwise_attention chunk_size (lift a') (lift softmax_logits) =
      Ok (lift p') /\
    stable_chunkwise_attention chunk_size (lift (madd a a')) (lift softmax_logits) =
      Ok (lift (madd p p')) /\
    stable_chunkwise_attention chunk_size (lift (mscale c a)) (lift softmax_logits) =
      Ok (lift (mscale c p)).
Proof.
  intros Ha Ha' Hu Hw. eexists. eexists.
  split; [now apply (stable_lift b t)|].
  split; [now apply (stable_lift b t)|].
  rewrite (lift_rect b t softmax_logits Hu).
  rewrite (madd_rect b t a a' Ha Ha'), (mscale_rect b t c a Ha).
  rewrite !(madd_rect b t), !(mscale_rect b t) by apply rect_tab2.
  rewrite !lift_tab2, !stable_real by assumption.
  split; f_equal; apply tab2_ext; intros i j Hi Hj;
    rewrite !at2_tab2 by assumption; f_equal.
  - apply st_out_plus.
  - apply st_out_scal.
Qed.

Lemma stable_linear_in_emit_probs_witness :
  exists p p',
    stable_chunkwise_attention 2 (lift [[1; 2]]) (lift [[2; -3]]) = Ok (lift p) /\
    stable_chunkwise_attention 2 (lift [[3; 0]]) (lift [[2; -3]]) = Ok (lift p') /\
    stable_chunkwise_attention 2 (lift (madd [[1; 2]] [[3; 0]])) (lift [[2; -3]]) =
      Ok (lift (madd p p')) /\
    stable_chunkwise_attention 2 (lift (mscale 5 [[1; 2]])) (lift [[2; -3]]) =
      Ok (lift (mscale 5 p)).
Proof.
  apply (stable_linear_in_emit_probs 1 2 [[1; 2]] [[3; 0]] [[2; -3]] 5 2).
  - solve_rect.
  - solve_rect.
  - solve_rect.
  - lia.
Defined.

(** X6.  On every pair of real arrays of one shape and every positive chunk
    size, [stable_chunkwise_attention] returns the chunkwise distribution of
    the notebook's text,
    [beta_j = sum_{k=j}^{j+w-1} alpha_k exp(u_j) / sum_{l=k-w+1}^{k} exp(u_l)]. *)
Theorem stable_is_exact (b t : nat)
    (emit_probs softmax_logits : list (list R)) (chunk_size : Z) :
  rect b t emit_probs -> rect b t softmax_logits -> (1 <= chunk_size)%Z ->
  exists probs,
    stable_chunkwise_attention chunk_size (lift emit_probs) (lift softmax_logits) =
      Ok (lift probs) /\
    rect b t probs /\
    forall i j, (i < b)%nat -> (j < t)%nat ->
      at2 probs i j =
      beta t chunk_size (at2 emit_probs i) (at2 softmax_logits i) j.
Proof.
  intros Ha Hu Hw. eexists.
  split; [now apply (stable_lift b t)|]. split; [apply rect_tab2|].
  intros i j Hi Hj. rewrite at2_tab2 by assumption. now apply st_out_exact.
Qed.

Lemma stable_is_exact_witness :
  exists probs,
    stable_chunkwise_attention 2 (lift [[1 / 4; 3 / 4]]) (lift [[2; -3]]) =
      Ok (lift probs) /\
    rect 1 2 probs /\
    forall i j, (i < 1)%nat -> (j < 2)%nat ->
      at2 probs i j = beta 2 2 (at2 [[1 / 4; 3 / 4]] i) (at2 [[2; -3]] i) j.
Proof.
  apply (stable_is_exact 1 2 [[1 / 4; 3 / 4]] [[2; -3]] 2).
  - solve_rect.
  - solve_rect.
  - lia.
Defined.

(** ** Chunks longer than the sequence *)

Lemma window_max_same_positions (t : nat) (g : nat -> R) (lo hi lo' hi' : Z) :
  (forall z, (0 <= z < Z.of_nat t)%Z -> (lo <= z <= hi)%Z <-> (lo' <= z <= hi')%Z) ->
  (exists z, (0 <= z < Z.of_nat t)%Z /\ (lo <= z <= hi)%Z) ->
  window_max t g lo hi = window_max t g lo' hi'.
Proof.
  intros Hsame [z0 [Hr0 Hz0]].
  assert (Hz0' : (lo' <= z0 <= hi')%Z) by now apply Hsame.
  apply Rle_antisym.
  - destruct (window_max_attained t g lo hi z0 Hz0 Hr0) as [z [Hz [Hr ->]]].
    apply window_max_ge; [now apply Hsame|assumption].
  - destruct (window_max_attained t g lo' hi' z0 Hz0' Hr0) as [z [Hz [Hr ->]]].
    apply window_max_ge; [now apply Hsame|assumption].
Qed.

Lemma Zsum_clip_same_positions (t : nat) (g : nat -> R) (lo hi lo' hi' : Z) :
  (forall z, (0 <= z < Z.of_nat t)%Z -> (lo <= z <= hi)%Z <-> (lo' <= z <= hi')%Z) ->
  Zsum lo hi (clip t 0 g) = Zsum lo' hi' (clip t 0 g).
Proof.
  intros Hsame. rewrite !Zsum_clip_row. apply Rsum_tab_ext. intros k Hk.
  specialize (Hsame (Z.of_nat k) ltac:(lia)).
  destruct (Z.leb_spec lo (Z.of_nat k)), (Z.leb_spec (Z.of_nat k) hi),
    (Z.leb_spec lo' (Z.of_nat k)), (Z.leb_spec (Z.of_nat k) hi'); cbn [andb];
    try reflexivity; lia.
Qed.

Section LongChunks.

Variables (t : nat) (w w' : Z) (alpha u : nat -> R).

Hypothesis w_long : (Z.of_nat t <= w)%Z.
Hypothesis w'_long : (Z.of_nat t <= w')%Z.

Lemma eff_den_long (k : nat) : (k < t)%nat -> eff_den t w u k = eff_den t w' u k.
Proof.
  intros Hk. unfold eff_den. apply Zsum_clip_same_positions. intros z Hz. lia.
Qed.

Lemma eff_out_long (j : nat) :
  (j < t)%nat -> eff_out t w alpha u j = eff_out t w' alpha u j.
Proof.
  intros Hj. unfold eff_out. f_equal.
  rewrite (Zsum_clip_same_positions t _ _ _ (Z.of_nat j - 0) (Z.of_nat j + (w' - 1)))
    by (intros z Hz; lia).
  apply Zsum_ext. intros z _. apply clip_ext. intros k Hk.
  now rewrite eff_den_long.
Qed.

Lemma st_max_long (k : nat) : (k < t)%nat -> st_max t w u k = st_max t w' u k.
Proof.
  intros Hk. unfold st_max. apply window_max_same_positions.
  - intros z Hz. lia.
  - exists (Z.of_nat k). lia.
Qed.

Lemma st_den_long (k : nat) : (k < t)%nat -> st_den t w u k = st_den t w' u k.
Proof.
  intros Hk. unfold st_den. rewrite st_max_long by assumption.
  apply Zsum_clip_same_positions. intros z Hz. lia.
Qed.

Lemma st_out_long (j : nat) :
  (j < t)%nat -> st_out t w alpha u j = st_out t w' alpha u j.
Proof.
  intros Hj. unfold st_out.
  rewrite (Zsum_clip_same_positions t _ _ _ (Z.of_nat j) (Z.of_nat j + w' - 1))
    by (intros z Hz; lia).
  apply Zsum_ext. intros z _. apply clip_ext. intros k Hk.
  now rewrite st_max_long, st_den_long.
Qed.

End LongChunks.

(** X7.  A chunk size at least the sequence length is as good as any other
    such: on real arrays of shape (batch, T), two chunk sizes that are both
    positive and at least T give the same result, for each of the two
    attention functions. *)
Theorem chunk_sizes_beyond_length_agree (b t : nat)
    (emit_probs softmax_logits : list (list R)) (w w' : Z) :
  rect b t emit_probs -> rect b t softmax_logits ->
  (1 <= w)%Z -> (1 <= w')%Z -> (Z.of_nat t <= w)%Z -> (Z.of_nat t <= w')%Z ->
  efficient_chunkwise_attention w (lift emit_probs) (lift softmax_logits) =
    efficient_chunkwise_attention w' (lift emit_probs) (lift softmax_logits) /\
  stable_chunkwise_attention w (lift emit_probs) (lift softmax_logits) =
    stable_chunkwise_attention w' (lift emit_probs) (lift softmax_logits).
Proof.
  intros Ha Hu Hw Hw' Ht Ht'.
  rewrite !(efficient_lift b t), !(stable_lift b t) by assumption.
  split; f_equal; f_equal; apply tab2_ext; intros i j Hi Hj.
  - now apply eff_out_long.
  - now apply st_out_long.
Qed.

Lemma chunk_sizes_beyond_length_agree_witness :
  efficient_chunkwise_attention 2 (lift [[1 / 4; 3 / 4]]) (lift [[2; -3]]) =
    efficient_chunkwise_attention 9 (lift [[1 / 4; 3 / 4]]) (lift [[2; -3]]) /\
  stable_chunkwise_attention 2 (lift [[1 / 4; 3 / 4]]) (lift [[2; -3]]) =
    stable_chunkwise_attention 9 (lift [[1 / 4; 3 / 4]]) (lift [[2; -3]]).
Proof.
  apply (chunk_sizes_beyond_length_agree 1 2 [[1 / 4; 3 / 4]] [[2; -3]] 2 9).
  - solve_rect.
  - solve_rect.
  - lia.
  - lia.
  - simpl; lia.
  - simpl; lia.
Defined.

(** ** What an entry of the stable result reads *)

Lemma window_max_ext (t : nat) (g g' : nat -> R) (lo hi : Z) :
  (forall z, (lo <= z <= hi)%Z -> (0 <= z < Z.of_nat t)%Z ->
             g (Z.to_nat z) = g' (Z.to_nat z)) ->
  window_max t g lo hi = window_max t g' lo hi.
Proof.
  intros H. unfold window_max. f_equal. apply map_ext_in. intros z Hz.
  apply filter_In in Hz. destruct Hz as [Hz Hr].
  apply H; [now apply In_zrange|now apply in_row_iff].
Qed.

Lemma clip_ext_at {A : Type} (t : nat) (v : A) (g h : nat -> A) (z : Z) :
  ((0 <= z < Z.of_nat t)%Z -> g (Z.to_nat z) = h (Z.to_nat z)) ->
  clip t v g z = clip t v h z.
Proof.
  intros H. rewrite !clip_in_row. destruct (in_row t z) eqn:E; [|reflexivity].
  apply in_row_iff in E. now apply H.
Qed.

Section Local.

Variables (t : nat) (w : Z) (alpha alpha' u u' : nat -> R) (j : nat).

Hypothesis chunk_positive : (1 <= w)%Z.
Hypothesis j_in_row : (j < t)%nat.
Hypothesis same_alpha :
  forall k, (k < t)%nat -> (Z.of_nat j <= Z.of_nat k <= Z.of_nat j + w - 1)%Z ->
    alpha k = alpha' k.
Hypothesis same_u :
  forall k, (k < t)%nat ->
    (Z.of_nat j - w + 1 <= Z.of_nat k <= Z.of_nat j + w - 1)%Z -> u k = u' k.

Lemma st_max_local (k : nat) :
  (k < t)%nat -> (Z.of_nat j <= Z.of_nat k <= Z.of_nat j + w - 1)%Z ->
  st_max t w u k = st_max t w u' k.
Proof.
  intros Hk Hjk. unfold st_max. apply window_max_ext. intros z Hz Hr.
  apply same_u; lia.
Qed.

Lemma st_den_local (k : nat) :
  (k < t)%nat -> (Z.of_nat j <= Z.of_nat k <= Z.of_nat j + w - 1)%Z ->
  st_den t w u k = st_den t w u' k.
Proof.
  intros Hk Hjk. unfold st_den. rewrite st_max_local by assumption.
  apply Zsum_ext. intros z Hz. apply clip_ext_at. intros Hr.
  rewrite same_u by lia. reflexivity.
Qed.

Lemma st_out_local : st_out t w alpha u j = st_out t w alpha' u' j.
Proof.
  unfold st_out. apply Zsum_ext. intros z Hz. apply clip_ext_at. intros Hr.
  rewrite (st_max_local (Z.to_nat z)), (st_den_local (Z.to_nat z)) by lia.
  rewrite (same_alpha (Z.to_nat z)) by lia.
  rewrite (same_u j) by lia. reflexivity.
Qed.

End Local.

(** X8.  Entry [i, j] of [stable_chunkwise_attention] reads [emit_probs] only
    at positions [j .. j+w-1] of row [i] and [softmax_logits] only at
    positions [j-w+1 .. j+w-1] of row [i]: two pairs of inputs that agree
    there give the same entry. *)
Theorem stable_entry_is_local (b t : nat)
    (emit_probs emit_probs' softmax_logits softmax_logits' : list (list R))
    (chunk_size : Z) (i j : nat) :
  rect b t emit_probs -> rect b t emit_probs' ->
  rect b t softmax_logits -> rect b t softmax_logits' ->
  (1 <= chunk_size)%Z -> (i < b)%nat -> (j < t)%nat ->
  (forall k, (k < t)%nat ->
     (Z.of_nat j <= Z.of_nat k <= Z.of_nat j + chunk_size - 1)%Z ->
     at2 emit_probs i k = at2 emit_probs' i k) ->
  (forall k, (k < t)%nat ->
     (Z.of_nat j - chunk_size + 1 <= Z.of_nat k <= Z.of_nat j + chunk_size - 1)%Z ->
     at2 softmax_logits i k = at2 softmax_logits' i k) ->
  exists probs probs',
    stable_chunkwise_attention chunk_size (lift emit_probs) (lift softmax_logits) =
      Ok (lift probs) /\
    stable_chunkwise_attention chunk_size (lift emit_probs') (lift softmax_logits') =
      Ok (lift probs') /\
    at2 probs i j = at2 probs' i j.
Proof.
  intros Ha Ha' Hu Hu' Hw Hi Hj Hsa Hsu. eexists. eexists.
  split; [now apply (stable_lift b t)|].
  split; [now apply (stable_lift b t)|].
  rewrite !at2_tab2 by assumption. now apply st_out_local.
Qed.

Lemma stable_entry_is_local_example_probs (k : nat) :
  (k < 3)%nat -> (Z.of_nat 0 <= Z.of_nat k <= Z.of_nat 0 + 2 - 1)%Z ->
  at2 [[1 / 4; 1 / 4; 1 / 2]] 0 k = at2 [[1 / 4; 1 / 4; 7]] 0 k.
Proof.
  intros Hk Hr. destruct k as [|[|k]]; [reflexivity|reflexivity|lia].
Qed.

Lemma stable_entry_is_local_example_logits (k : nat) :
  (k < 3)%nat -> (Z.of_nat 0 - 2 + 1 <= Z.of_nat k <= Z.of_nat 0 + 2 - 1)%Z ->
  at2 [[2; -3; 1]] 0 k = at2 [[2; -3; 40]] 0 k.
Proof.
  intros Hk Hr. destruct k as [|[|k]]; [reflexivity|reflexivity|lia].
Qed.

Lemma stable_entry_is_local_witness :
  exists probs probs',
    stable_chunkwise_attention 2 (lift [[1 / 4; 1 / 4; 1 / 2]]) (lift [[2; -3; 1]]) =
      Ok (lift probs) /\
    stable_chunkwise_attention 2 (lift [[1 / 4; 1 / 4; 7]]) (lift [[2; -3; 40]]) =
      Ok (lift probs') /\
    at2 probs 0 0 = at2 probs' 0 0.
Proof.
  apply (stable_entry_is_local 1 3 [[1 / 4; 1 / 4; 1 / 2]] [[1 / 4; 1 / 4; 7]]
           [[2; -3; 1]] [[2; -3; 40]] 2 0 0).
  - solve_rect.
  - solve_rect.
  - solve_rect.
  - solve_rect.
  - lia.
  - lia.
  - lia.
  - exact stable_entry_is_local_example_probs.
  - exact stable_entry_is_local_example_logits.
Defined.

(** ** No exponential overflows *)

Lemma exp_nonpos (x : R) : x <= 0 -> exp x <= 1.
Proof.
  intros [H| ->]; [|rewrite exp_0; lra].
  rewrite <- exp_0. now apply Rlt_le, exp_increasing.
Qed.

Lemma list_max_tab_ge (t : nat) (g : nat -> R) (j : nat) :
  (j < t)%nat -> g j <= list_max (tab t g).
Proof.
  intros Hj. apply list_max_ge. unfold tab. apply in_map, in_seq. lia.
Qed.

Lemma list_max_tab_attained (t : nat) (g : nat -> R) :
  (0 < t)%nat -> exists j, (j < t)%nat /\ list_max (tab t g) = g j.
Proof.
  intros Ht.
  assert (Hne : tab t g <> []) by (destruct t; [lia|rewrite tab_S; discriminate]).
  apply list_max_In in Hne. unfold tab in Hne at 2. apply in_map_iff in Hne.
  destruct Hne as [j [Hj Hin]]. apply in_seq in Hin. exists j. split; [lia|now symmetry].
Qed.

Lemma eff_exp_le_1 (t : nat) (u : nat -> R) (j : nat) :
  (j < t)%nat -> eff_exp t u j <= 1.
Proof.
  intros Hj. unfold eff_exp. apply Rmax_lub; [|unfold floor; lra].
  apply exp_nonpos. pose proof (list_max_tab_ge t u j Hj). lra.
Qed.

Lemma eff_exp_at_max (t : nat) (u : nat -> R) (j : nat) :
  list_max (tab t u) = u j -> eff_exp t u j = 1.
Proof.
  intros H. unfold eff_exp. rewrite H.
  replace (u j - u j) with 0 by lra. rewrite exp_0.
  apply Rmax_left. unfold floor. lra.
Qed.

Lemma Rsum_map_const {A : Type} (c : R) (l : list A) :
  Rsum (map (fun _ => c) l) = INR (length l) * c.
Proof.
  induction l as [|a l IH]; [simpl; lra|].
  change (length (a :: l)) with (S (length l)). rewrite S_INR.
  simpl. rewrite IH. lra.
Qed.

Lemma Zsum_le_count (lo hi : Z) (c : R) (f : Z -> R) :
  (lo <= hi + 1)%Z -> (forall z, (lo <= z <= hi)%Z -> f z <= c) ->
  Zsum lo hi f <= IZR (hi - lo + 1) * c.
Proof.
  intros Hlo Hf.
  eapply Rle_trans; [apply (Zsum_le lo hi f (fun _ => c)); exact Hf|].
  unfold Zsum. rewrite Rsum_map_const. unfold zrange.
  rewrite length_map, length_seq, INR_IZR_INZ, Z2Nat.id by lia. lra.
Qed.

Lemma clip_le_bound (t : nat) (c : R) (g : nat -> R) (z : Z) :
  0 <= c -> ((0 <= z < Z.of_nat t)%Z -> g (Z.to_nat z) <= c) ->
  clip t 0 g z <= c.
Proof.
  intros Hc H. rewrite clip_in_row. destruct (in_row t z) eqn:E; [|assumption].
  apply in_row_iff in E. now apply H.
Qed.

Lemma eff_den_le_chunk (t : nat) (w : Z) (u : nat -> R) (k : nat) :
  (1 <= w)%Z -> eff_den t w u k <= IZR w.
Proof.
  intros Hw. unfold eff_den.
  eapply Rle_trans; [apply (Zsum_le_count _ _ 1); [lia|]|].
  - intros z _. apply clip_le_bound; [lra|]. intros Hr. apply eff_exp_le_1. lia.
  - replace (Z.of_nat k + 0 - (Z.of_nat k - (w - 1)) + 1)%Z with w by lia. lra.
Qed.

Lemma st_den_ge_1 (t : nat) (w : Z) (u : nat -> R) (k : nat) :
  (1 <= w)%Z -> (k < t)%nat -> 1 <= st_den t w u k.
Proof.
  intros Hw Hk. unfold st_den, st_max.
  destruct (window_max_attained t u (Z.of_nat k - w + 1) (Z.of_nat k) (Z.of_nat k))
    as [z [Hz [Hr Hm]]]; [lia|lia|].
  rewrite Hm.
  replace 1 with (clip t 0 (fun l => exp (u l - u (Z.to_nat z))) z).
  - apply Zsum_ge_term; [|assumption].
    intros y _. apply clip_nonneg. intros. apply Rlt_le, exp_pos.
  - rewrite clip_in_row.
    replace (in_row t z) with true by (symmetry; now apply in_row_iff).
    replace (u (Z.to_nat z) - u (Z.to_nat z)) with 0 by lra. apply exp_0.
Qed.

Lemma st_den_le_chunk (t : nat) (w : Z) (u : nat -> R) (k : nat) :
  (1 <= w)%Z -> st_den t w u k <= IZR w.
Proof.
  intros Hw. unfold st_den.
  eapply Rle_trans; [apply (Zsum_le_count _ _ 1); [lia|]|].
  - intros z Hz. apply clip_le_bound; [lra|]. intros Hr. apply exp_nonpos.
    pose proof (window_max_ge t u (Z.of_nat k - w + 1) (Z.of_nat k) z Hz Hr).
    unfold st_max. lra.
  - replace (Z.of_nat k - (Z.of_nat k - w + 1) + 1)%Z with w by lia. lra.
Qed.

Lemma stable_softmax_denominators_real (b t : nat) (u : nat -> nat -> R) (w : Z) :
  (1 <= w)%Z ->
  stable_softmax_denominators w (tab2 b t (fun i j => Fin (u i j))) =
  Ok (tab2 b t (fun i k => Fin (st_den t w (u i) k))).
Proof.
  intros Hw. unfold stable_softmax_denominators.
  rewrite moving_max_real by assumption. cbn [bind].
  rewrite pad_tab2 by lia. cbn [bind].
  rewrite (frame_padded_tab2 b t (fun i j => Fin (u i j))) by assumption.
  rewrite expand_dims_tab2, broadcast3_last_r. cbn [bind].
  rewrite map3d_tab3, reduce_sum_last_tab3. f_equal.
  apply tab2_ext. intros i k _ _. unfold st_den. rewrite Zsum_tab.
  replace (Z.to_nat (Z.of_nat k - (Z.of_nat k - w + 1) + 1))
    with (Z.to_nat w) by lia.
  rewrite <- sum_tab_Fin. f_equal. apply tab_ext. intros s _.
  apply stable_den_entry.
Qed.

(** X9.  The shift by the row maximum keeps the efficient variant's
    exponentials from overflowing: on real logits, every entry of
    [softmax_exp] is at most 1, a row that is not empty has an entry equal
    to 1, and every entry of [softmax_denominators] is at most
    [chunk_size]. *)
Theorem efficient_exponentials_at_most_one (b t : nat)
    (softmax_logits : list (list R)) (chunk_size : Z) :
  rect b t softmax_logits -> (1 <= chunk_size)%Z ->
  exists softmax_exp softmax_denominators,
    efficient_softmax_exp (lift softmax_logits) = Ok (lift softmax_exp) /\
    efficient_softmax_denominators chunk_size (lift softmax_logits) =
      Ok (lift softmax_denominators) /\
    (forall i j, (i < b)%nat -> (j < t)%nat ->
       at2 softmax_exp i j <= 1 /\
       at2 softmax_denominators i j <= IZR chunk_size) /\
    (forall i, (i < b)%nat -> (0 < t)%nat ->
       exists j, (j < t)%nat /\ at2 softmax_exp i j = 1).
Proof.
  intros Hu Hw.
  exists (tab2 b t (fun i j => eff_exp t (at2 softmax_logits i) j)).
  exists (tab2 b t (fun i k => eff_den t chunk_size (at2 softmax_logits i) k)).
  rewrite (lift_rect b t softmax_logits Hu), !lift_tab2.
  split; [apply efficient_softmax_exp_real|].
  split; [now apply efficient_softmax_denominators_real|].
  split.
  - intros i j Hi Hj. rewrite !at2_tab2 by assumption.
    split; [now apply eff_exp_le_1|now apply eff_den_le_chunk].
  - intros i Hi Ht.
    destruct (list_max_tab_attained t (at2 softmax_logits i) Ht) as [j [Hj Hm]].
    exists j. split; [assumption|]. rewrite at2_tab2 by assumption.
    now apply eff_exp_at_max.
Qed.

Lemma efficient_exponentials_at_most_one_witness :
  exists softmax_exp softmax_denominators,
    efficient_softmax_exp (lift [[0; -20; 1]]) = Ok (lift softmax_exp) /\
    efficient_softmax_denominators 2 (lift [[0; -20; 1]]) =
      Ok (lift softmax_denominators) /\
    (forall i j, (i < 1)%nat -> (j < 3)%nat ->
       at2 softmax_exp i j <= 1 /\ at2 softmax_denominators i j <= IZR 2) /\
    (forall i, (i < 1)%nat -> (0 < 3)%nat ->
       exists j, (j < 3)%nat /\ at2 softmax_exp i j = 1).
Proof.
  apply (efficient_exponentials_at_most_one 1 3 [[0; -20; 1]] 2).
  - solve_rect.
  - lia.
Defined.

(** X10.  The stable variant needs no clamp: on real logits and a positive
    chunk size every entry of its [softmax_denominators] lies between 1 and
    [chunk_size], the chunk's own maximum contributing [exp 0]. *)
Theorem stable_denominators_at_least_one (b t : nat)
    (softmax_logits : list (list R)) (chunk_size : Z) :
  rect b t softmax_logits -> (1 <= chunk_size)%Z ->
  exists softmax_denominators,
    stable_softmax_denominators chunk_size (lift softmax_logits) =
      Ok (lift softmax_denominators) /\
    rect b t softmax_denominators /\
    forall i j, (i < b)%nat -> (j < t)%nat ->
      1 <= at2 softmax_denominators i j <= IZR chunk_size.
Proof.
  intros Hu Hw.
  exists (tab2 b t (fun i k => st_den t chunk_size (at2 softmax_logits i) k)).
  rewrite (lift_rect b t softmax_logits Hu), !lift_tab2.
  split; [now apply stable_softmax_denominators_real|].
  split; [apply rect_tab2|].
  intros i j Hi Hj. rewrite at2_tab2 by assumption.
  split; [now apply st_den_ge_1|now apply st_den_le_chunk].
Qed.

Lemma stable_denominators_at_least_one_witness :
  exists softmax_denominators,
    stable_softmax_denominators 2 (lift [[0; -20; 1]]) =
      Ok (lift softmax_denominators) /\
    rect 1 3 softmax_denominators /\
    forall i j, (i < 1)%nat -> (j < 3)%nat ->
      1 <= at2 softmax_denominators i j <= IZR 2.
Proof.
  apply (stable_denominators_at_least_one 1 3 [[0; -20; 1]] 2).
  - solve_rect.
  - lia.
Defined.

(** ** Sliding maxima of sliding maxima *)

Lemma window_max_window_max (t : nat) (x : nat -> R) (w w' : Z) (j : nat) :
  (1 <= w)%Z -> (1 <= w')%Z -> (j < t)%nat ->
  window_max t (fun k => window_max t x (Z.of_nat k - w + 1) (Z.of_nat k))
             (Z.of_nat j - w' + 1) (Z.of_nat j) =
  window_max t x (Z.of_nat j - (w + w' - 1) + 1) (Z.of_nat j).
Proof.
  intros Hw Hw' Hj. apply Rle_antisym.
  - destruct (window_max_attained t
                (fun k => window_max t x (Z.of_nat k - w + 1) (Z.of_nat k))
                (Z.of_nat j - w' + 1) (Z.of_nat j) (Z.of_nat j))
      as [k [Hk [Hkr ->]]]; [lia|lia|].
    rewrite Z2Nat.id by lia.
    destruct (window_max_attained t x (k - w + 1) k k) as [l [Hl [Hlr ->]]];
      [lia|lia|].
    apply window_max_ge; lia.
  - destruct (window_max_attained t x (Z.of_nat j - (w + w' - 1) + 1) (Z.of_nat j)
                (Z.of_nat j)) as [l [Hl [Hlr ->]]]; [lia|lia|].
    set (k := Z.max l (Z.of_nat j - w' + 1)).
    apply Rle_trans with (window_max t x (k - w + 1) k).
    + apply window_max_ge; lia.
    + pose proof (window_max_ge t
                    (fun k0 => window_max t x (Z.of_nat k0 - w + 1) (Z.of_nat k0))
                    (Z.of_nat j - w' + 1) (Z.of_nat j) k ltac:(lia) ltac:(lia)) as H.
      cbv beta in H. rewrite Z2Nat.id in H by lia. exact H.
Qed.

(** X11.  Sliding maxima compose: on a real array, [moving_max] with window
    [w'] of [moving_max] with window [w] is [moving_max] with window
    [w + w' - 1]. *)
Theorem moving_max_of_moving_max (b t : nat) (x : list (list R)) (w w' : Z) :
  rect b t x -> (1 <= w)%Z -> (1 <= w')%Z ->
  exists y,
    moving_max (lift x) w = Ok (lift y) /\
    moving_max (lift y) w' = moving_max (lift x) (w + w' - 1).
Proof.
  intros Hx Hw Hw'. eexists.
  split; [now apply (moving_max_lift b t)|].
  rewrite lift_tab2, moving_max_real, (moving_max_lift b t), lift_tab2
    by (assumption || lia).
  f_equal. apply tab2_ext. intros i j Hi Hj. f_equal.
  now apply window_max_window_max.
Qed.

Lemma moving_max_of_moving_max_witness :
  exists y,
    moving_max (lift [[1; 5; 2; 0]]) 2 = Ok (lift y) /\
    moving_max (lift y) 3 = moving_max (lift [[1; 5; 2; 0]]) (2 + 3 - 1).
Proof.
  apply (moving_max_of_moving_max 1 4 [[1; 5; 2; 0]] 2 3).
  - solve_rect.
  - lia.
  - lia.
Defined.

(** X12.  A sliding maximum lies between the array and its row maxima and
    grows with the window: for [1 <= w <= w'], entry by entry,
    [x <= moving_max x w <= moving_max x w' <= max of the row]. *)
Theorem moving_max_grows_with_window (b t : nat) (x : list (list R)) (w w' : Z) :
  rect b t x -> (1 <= w)%Z -> (w <= w')%Z ->
  exists y y',
    moving_max (lift x) w = Ok (lift y) /\
    moving_max (lift x) w' = Ok (lift y') /\
    forall i j, (i < b)%nat -> (j < t)%nat ->
      at2 x i j <= at2 y i j /\
      at2 y i j <= at2 y' i j /\
      at2 y' i j <= list_max (nth i x []).
Proof.
  intros Hx Hw Hww'. eexists. eexists.
  split; [now apply (moving_max_lift b t)|].
  split; [apply (moving_max_lift b t); (assumption || lia)|].
  intros i j Hi Hj. rewrite !at2_tab2 by assumption. repeat split.
  - rewrite <- (Nat2Z.id j) at 1. apply window_max_ge; lia.
  - destruct (window_max_attained t (at2 x i) (Z.of_nat j - w + 1) (Z.of_nat j)
                (Z.of_nat j)) as [z [Hz [Hr ->]]]; [lia|lia|].
    apply window_max_ge; lia.
  - destruct (window_max_attained t (at2 x i) (Z.of_nat j - w' + 1) (Z.of_nat j)
                (Z.of_nat j)) as [z [Hz [Hr ->]]]; [lia|lia|].
    rewrite <- (tab_at2_row b t x i Hx Hi). apply list_max_tab_ge. lia.
Qed.

Lemma moving_max_grows_with_window_witness :
  exists y y',
    moving_max (lift [[1; 5; 2; 0]]) 2 = Ok (lift y) /\
    moving_max (lift [[1; 5; 2; 0]]) 3 = Ok (lift y') /\
    forall i j, (i < 1)%nat -> (j < 4)%nat ->
      at2 [[1; 5; 2; 0]] i j <= at2 y i j /\
      at2 y i j <= at2 y' i j /\
      at2 y' i j <= list_max (nth i [[1; 5; 2; 0]] []).
Proof.
  apply (moving_max_grows_with_window 1 4 [[1; 5; 2; 0]] 2 3).
  - solve_rect.
  - lia.
  - lia.
Defined.

(** ** The efficient variant is the stable one on clipped logits *)

Lemma exp_le_mono (a c : R) : a <= c -> exp a <= exp c.
Proof. intros [H| ->]; [now apply Rlt_le, exp_increasing|lra]. Qed.

Lemma exp_Rmax (a c : R) : exp (Rmax a c) = Rmax (exp a) (exp c).
Proof.
  unfold Rmax. destruct (Rle_dec a c) as [H|H], (Rle_dec (exp a) (exp c)) as [H'|H'];
    try reflexivity.
  - exfalso. apply H'. now apply exp_le_mono.
  - apply Rle_antisym; [assumption|]. apply exp_le_mono. lra.
Qed.

Lemma exp_ln_floor : exp (ln floor) = floor.
Proof. apply exp_ln, floor_pos. Qed.

Lemma ln_floor_negative : ln floor < 0.
Proof.
  rewrite <- ln_1. apply ln_increasing; [apply floor_pos|unfold floor; lra].
Qed.

Section Clipped.

Variables (t : nat) (w : Z) (alpha u : nat -> R).

Lemma clipped_max :
  (0 < t)%nat -> list_max (tab t (clipped t u)) = list_max (tab t u).
Proof.
  intros Ht. pose proof ln_floor_negative as Hln. apply Rle_antisym.
  - destruct (list_max_tab_attained t (clipped t u) Ht) as [j [Hj ->]].
    unfold clipped. apply Rmax_lub; [now apply list_max_tab_ge|lra].
  - destruct (list_max_tab_attained t u Ht) as [j [Hj Hm]].
    rewrite Hm.
    eapply Rle_trans; [|apply (list_max_tab_ge t (clipped t u) j Hj)].
    unfold clipped. apply Rmax_l.
Qed.

Lemma eff_exp_clipped (j : nat) :
  (j < t)%nat ->
  eff_exp t u j = exp (clipped t u j - list_max (tab t (clipped t u))) /\
  eff_exp t (clipped t u) j = eff_exp t u j.
Proof.
  intros Hj. assert (Ht : (0 < t)%nat) by lia.
  assert (H1 : eff_exp t u j =
               exp (clipped t u j - list_max (tab t (clipped t u)))).
  { rewrite clipped_max by assumption. unfold eff_exp, clipped.
    rewrite <- exp_ln_floor at 1. rewrite <- exp_Rmax. f_equal.
    unfold Rmax.
    destruct (Rle_dec (u j - list_max (tab t u)) (ln floor)),
      (Rle_dec (u j) (list_max (tab t u) + ln floor)); lra. }
  split; [assumption|].
  unfold eff_exp at 1. rewrite <- H1. apply Rmax_left, exp_floor_le.
Qed.

Lemma eff_out_clipped (j : nat) :
  (1 <= w)%Z -> (j < t)%nat ->
  eff_out t w alpha u j = st_out t w alpha (clipped t u) j.
Proof.
  intros Hw Hj.
  rewrite <- (eff_out_no_clamp t w alpha (clipped t u)) by
    (try assumption; intros k Hk;
     destruct (eff_exp_clipped k Hk) as [<- _]; apply exp_floor_le).
  unfold eff_out. destruct (eff_exp_clipped j Hj) as [_ ->]. f_equal.
  apply Zsum_ext. intros z _. apply clip_ext. intros k Hk. f_equal.
  unfold eff_den. apply Zsum_ext. intros y _. apply clip_ext. intros l Hl.
  now destruct (eff_exp_clipped l Hl) as [_ ->].
Qed.

End Clipped.

Lemma clip_logits_rect (b t : nat) (x : list (list R)) :
  rect b t x ->
  clip_logits x =
  tab2 b t (fun i j =>
              Rmax (at2 x i j) (list_max (tab t (at2 x i)) + ln floor)).
Proof.
  intros Hx. unfold clip_logits.
  rewrite (rect_as_tab2 0 b t x Hx) at 1. unfold tab2.
  rewrite map_tab. apply tab_ext. intros i _. now rewrite map_tab.
Qed.

(** X13.  The efficient variant computes the stable variant's result for
    clipped logits: on every pair of real arrays of one shape and every chunk
    size, [efficient_chunkwise_attention] on the logits is
    [stable_chunkwise_attention] on the logits raised, in each row, to at
    least the row maximum plus [ln 1e-5]. *)
Theorem efficient_is_stable_on_clipped_logits (b t : nat)
    (emit_probs softmax_logits : list (list R)) (chunk_size : Z) :
  rect b t emit_probs -> rect b t softmax_logits ->
  efficient_chunkwise_attention chunk_size (lift emit_probs) (lift softmax_logits) =
  stable_chunkwise_attention chunk_size (lift emit_probs)
    (lift (clip_logits softmax_logits)).
Proof.
  intros Ha Hu.
  destruct (Z_le_gt_dec chunk_size 0) as [Hw|Hw].
  - now rewrite efficient_nonpositive, stable_nonpositive.
  - assert (Hw' : (1 <= chunk_size)%Z) by lia.
    rewrite (clip_logits_rect b t softmax_logits Hu).
    rewrite (efficient_lift b t) by assumption.
    rewrite (lift_rect b t emit_probs Ha), !lift_tab2, stable_real by assumption.
    f_equal. apply tab2_ext. intros i j Hi Hj. f_equal.
    now apply eff_out_clipped.
Qed.

Lemma efficient_is_stable_on_clipped_logits_witness :
  efficient_chunkwise_attention 2 (lift [[1 / 4; 3 / 4]]) (lift [[2; -30]]) =
  stable_chunkwise_attention 2 (lift [[1 / 4; 3 / 4]])
    (lift (clip_logits [[2; -30]])).
Proof.
  apply (efficient_is_stable_on_clipped_logits 1 2 [[1 / 4; 3 / 4]] [[2; -30]] 2).
  - solve_rect.
  - solve_rect.
Defined.

(** ** The demonstration cell's inputs *)

Lemma Rsum_tab_ge_term (t : nat) (g : nat -> R) (j : nat) :
  (forall k, (k < t)%nat -> 0 <= g k) -> (j < t)%nat -> g j <= Rsum (tab t g).
Proof.
  intros Hg Hj. unfold tab. apply Rsum_ge_term.
  - intros k Hk. apply in_seq in Hk. apply Hg. lia.
  - apply in_seq. lia.
Qed.

Lemma normalize_rows_real (b t : nat) (d : nat -> nat -> R) :
  (forall i, (i < b)%nat -> Rsum (tab t (d i)) <> 0) ->
  normalize_rows (tab2 b t (fun i j => Fin (d i j))) =
  Ok (tab2 b t (fun i j => Fin (d i j / Rsum (tab t (d i))))).
Proof.
  intros Hs. unfold normalize_rows. unfold tab2 at 2.
  rewrite map_tab.
  rewrite (tab_ext b _ (fun i => [Fin (Rsum (tab t (d i)))]))
    by (intros i _; now rewrite sum_tab_Fin).
  rewrite broadcast2_column. f_equal. apply tab2_ext. intros i j Hi _.
  apply xdiv_Fin. now apply Hs.
Qed.

Section Normalized.

Variables (t : nat) (d : nat -> R).

Hypothesis d_nonneg : forall k, (k < t)%nat -> 0 <= d k.
Hypothesis d_total : 0 < Rsum (tab t d).

Lemma normalized_unit (j : nat) :
  (j < t)%nat -> 0 <= d j / Rsum (tab t d) <= 1.
Proof.
  intros Hj. pose proof (d_nonneg j Hj) as H0.
  pose proof (Rsum_tab_ge_term t d j d_nonneg Hj) as H1.
  split.
  - apply Rmult_le_pos; [assumption|]. now apply Rlt_le, Rinv_0_lt_compat.
  - apply (Rmult_le_reg_r (Rsum (tab t d))); [assumption|].
    unfold Rdiv. rewrite Rmult_assoc, Rinv_l by lra. lra.
Qed.

Lemma normalized_total : Rsum (tab t (fun j => d j / Rsum (tab t d))) = 1.
Proof.
  rewrite (Rsum_tab_ext t _ (fun j => / Rsum (tab t d) * d j))
    by (intros; unfold Rdiv; ring).
  rewrite Rsum_tab_scal. apply Rinv_l. lra.
Qed.

End Normalized.

(** X14.  What the demonstration cell feeds and gets: for data with entries
    that are not negative and rows of positive sum, and real logits of the
    same shape, the row-normalized [emit_probs] has entries in [0, 1] and rows
    of sum 1, and so has the result of each attention function on it. *)
Theorem demonstration_outputs_are_distributions (b t : nat)
    (emit_probs_data softmax_logits : list (list R)) (chunk_size : Z) :
  rect b t emit_probs_data -> rect b t softmax_logits -> (1 <= chunk_size)%Z ->
  (forall i j, (i < b)%nat -> (j < t)%nat -> 0 <= at2 emit_probs_data i j) ->
  (forall i, (i < b)%nat -> 0 < Rsum (nth i emit_probs_data [])) ->
  exists emit_probs option_1 option_2,
    normalize_rows (lift emit_probs_data) = Ok (lift emit_probs) /\
    efficient_chunkwise_attention chunk_size (lift emit_probs) (lift softmax_logits) =
      Ok (lift option_1) /\
    stable_chunkwise_attention chunk_size (lift emit_probs) (lift softmax_logits) =
      Ok (lift option_2) /\
    (forall i, (i < b)%nat ->
       Rsum (nth i emit_probs []) = 1 /\
       Rsum (nth i option_1 []) = 1 /\
       Rsum (nth i option_2 []) = 1) /\
    (forall i j, (i < b)%nat -> (j < t)%nat ->
       0 <= at2 emit_probs i j <= 1 /\
       0 <= at2 option_1 i j <= 1 /\
       0 <= at2 option_2 i j <= 1).
Proof.
  intros Hd Hu Hw Hnn Hpos.
  set (p := fun i j => at2 emit_probs_data i j / Rsum (tab t (at2 emit_probs_data i))).
  exists (tab2 b t p).
  exists (tab2 b t (fun i j => eff_out t chunk_size (p i) (at2 softmax_logits i) j)).
  exists (tab2 b t (fun i j => st_out t chunk_size (p i) (at2 softmax_logits i) j)).
  assert (Htot : forall i, (i < b)%nat -> 0 < Rsum (tab t (at2 emit_probs_data i))).
  { intros i Hi. rewrite (tab_at2_row b t emit_probs_data i Hd Hi). now apply Hpos. }
  assert (Hp1 : forall i, (i < b)%nat -> Rsum (tab t (p i)) = 1).
  { intros i Hi. apply normalized_total. now apply Htot. }
  assert (Hp0 : forall i k, (i < b)%nat -> (k < t)%nat -> 0 <= p i k <= 1).
  { intros i k Hi Hk. apply normalized_unit; [|now apply Htot|assumption].
    intros k' Hk'. now apply Hnn. }
  rewrite (lift_rect b t emit_probs_data Hd), (lift_rect b t softmax_logits Hu).
  rewrite !lift_tab2.
  split.
  { apply normalize_rows_real. intros i Hi. apply Rgt_not_eq. now apply Htot. }
  split; [now apply efficient_real|]. split; [now apply stable_real|].
  split.
  - intros i Hi. rewrite !nth_tab2_row by assumption.
    rewrite eff_out_total, st_out_total by assumption.
    repeat split; now apply Hp1.
  - intros i j Hi Hj. rewrite !at2_tab2 by assumption.
    assert (Hn : forall k, (k < t)%nat -> 0 <= p i k)
      by (intros k Hk; now apply Hp0).
    repeat split; try (now apply Hp0).
    + now apply eff_out_nonneg.
    + apply eff_out_le_1; (assumption || now apply Hp1).
    + now apply st_out_nonneg.
    + apply st_out_le_1; (assumption || now apply Hp1).
Qed.

Lemma demonstration_data_nonneg (i j : nat) :
  (i < 1)%nat -> (j < 3)%nat -> 0 <= at2 [[1; 2; 5]] i j.
Proof.
  intros Hi Hj. destruct i as [|i]; [|lia].
  destruct j as [|[|[|j]]]; [| | |lia]; unfold at2; cbn [nth]; lra.
Qed.

Lemma demonstration_data_positive (i : nat) :
  (i < 1)%nat -> 0 < Rsum (nth i [[1; 2; 5]] []).
Proof.
  intros Hi. destruct i as [|i]; [|lia]. cbn [nth Rsum fold_right]. lra.
Qed.

Lemma demonstration_outputs_are_distributions_witness :
  exists emit_probs option_1 option_2,
    normalize_rows (lift [[1; 2; 5]]) = Ok (lift emit_probs) /\
    efficient_chunkwise_attention 2 (lift emit_probs) (lift [[0; -3; 1]]) =
      Ok (lift option_1) /\
    stable_chunkwise_attention 2 (lift emit_probs) (lift [[0; -3; 1]]) =
      Ok (lift option_2) /\
    (forall i, (i < 1)%nat ->
       Rsum (nth i emit_probs []) = 1 /\
       Rsum (nth i option_1 []) = 1 /\
       Rsum (nth i option_2 []) = 1) /\
    (forall i j, (i < 1)%nat -> (j < 3)%nat ->
       0 <= at2 emit_probs i j <= 1 /\
       0 <= at2 option_1 i j <= 1 /\
       0 <= at2 option_2 i j <= 1).
Proof.
  apply (demonstration_outputs_are_distributions 1 3 [[1; 2; 5]] [[0; -3; 1]] 2).
  - solve_rect.
  - solve_rect.
  - lia.
  - exact demonstration_data_nonneg.
  - exact demonstration_data_positive.
Defined.

(** ** The demonstration cell's large-range edit *)

Lemma subtract_on_slice_rect (b t : nat) (x : list (list R)) (i lo hi : nat) (c : R) :
  rect b t x -> (i < b)%nat ->
  subtract_on_slice x i lo hi c =
  Some (tab2 b t (fun r j =>
          if ((r =? i) && ((lo <=? j) && (j <? hi)))%nat
          then at2 x r j - c else at2 x r j)).
Proof.
  intros Hx Hi. unfold subtract_on_slice.
  destruct Hx as [Hb Ht]. rewrite Hb.
  destruct (Nat.ltb_spec i b); [|lia]. f_equal. unfold tab2.
  apply tab_ext. intros r Hr. cbv zeta.
  assert (Hlen : length (nth r x []) = t)
    by (apply (rect_row_length b t x r); [now split|assumption]).
  destruct (Nat.eqb_spec r i) as [-> |Hne]; cbn [andb].
  - rewrite Hlen. reflexivity.
  - rewrite (list_as_tab 0 (nth r x [])) at 1. now rewrite Hlen.
Qed.

Lemma exp_below_floor (y : R) : y <= -100000 -> exp y < floor.
Proof.
  intros Hy. apply Rle_lt_trans with (exp (Ropp 100000)).
  - apply exp_le_mono. lra.
  - rewrite exp_Ropp.
    pose proof (exp_ineq1 100000 ltac:(lra)) as H.
    pose proof (exp_pos 100000) as Hp.
    unfold floor. apply (Rmult_lt_reg_r (exp 100000)); [assumption|].
    rewrite Rinv_l by lra. lra.
Qed.

(** X15.  The edit the demonstration makes to force a large range drives the
    efficient variant into its clamp: when the logits of row [i] lie within
    [-m, m], some position of the row is outside the slice and
    [c >= 2 m + 100000], then after [x[i, lo:hi] -= c] the exponential of
    every edited logit, shifted by the new row maximum, is below [1e-5] and
    [softmax_exp] holds exactly [1e-5] there. *)
Theorem large_range_edit_is_clamped (b t : nat) (softmax_logits_data : list (list R))
    (i lo hi : nat) (c m : R) :
  rect b t softmax_logits_data -> (i < b)%nat ->
  (forall j, (j < t)%nat -> - m <= at2 softmax_logits_data i j <= m) ->
  (exists k, (k < t)%nat /\ ~ (lo <= k < hi)%nat) ->
  2 * m + 100000 <= c ->
  exists edited softmax_exp,
    subtract_on_slice softmax_logits_data i lo hi c = Some edited /\
    rect b t edited /\
    efficient_softmax_exp (lift edited) = Ok (lift softmax_exp) /\
    forall j, (j < t)%nat -> (lo <= j < hi)%nat ->
      at2 edited i j = at2 softmax_logits_data i j - c /\
      exp (at2 edited i j - list_max (nth i edited [])) < 1 / 100000 /\
      at2 softmax_exp i j = 1 / 100000.
Proof.
  intros Hx Hi Hm [k [Hk Hout]] Hc.
  set (e := fun r j =>
              if ((r =? i) && ((lo <=? j) && (j <? hi)))%nat
              then at2 softmax_logits_data r j - c
              else at2 softmax_logits_data r j).
  exists (tab2 b t e).
  exists (tab2 b t (fun r j => eff_exp t (e r) j)).
  split; [now apply subtract_on_slice_rect|]. split; [apply rect_tab2|].
  split; [rewrite !lift_tab2; apply efficient_softmax_exp_real|].
  intros j Hj Hin. rewrite !at2_tab2, nth_tab2_row by assumption.
  assert (Hej : e i j = at2 softmax_logits_data i j - c).
  { unfold e. rewrite Nat.eqb_refl.
    destruct (Nat.leb_spec lo j), (Nat.ltb_spec j hi); try lia. reflexivity. }
  assert (Hek : e i k = at2 softmax_logits_data i k).
  { unfold e. rewrite Nat.eqb_refl.
    destruct (Nat.leb_spec lo k), (Nat.ltb_spec k hi); try reflexivity. lia. }
  assert (Hlow : e i j - list_max (tab t (e i)) <= -100000).
  { pose proof (list_max_tab_ge t (e i) k Hk) as Hmax.
    pose proof (Hm j Hj). pose proof (Hm k Hk). lra. }
  pose proof (exp_below_floor _ Hlow) as Hexp.
  split; [assumption|]. split; [exact Hexp|].
  unfold eff_exp. rewrite Rmax_right; [reflexivity|]. lra.
Qed.

Lemma large_range_edit_example_bound (j : nat) :
  (j < 8)%nat -> - 3 <= at2 [[1; 0; -1; 2; 0; 1; -2; 0]] 0 j <= 3.
Proof.
  intros Hj. unfold at2. cbn [nth].
  do 8 (destruct j as [|j]; [cbn [nth]; lra|]). lia.
Qed.

Lemma large_range_edit_example_outside :
  exists k, (k < 8)%nat /\ ~ (5 <= k < 7)%nat.
Proof. exists 0%nat. lia. Qed.

Lemma large_range_edit_is_clamped_witness :
  exists edited softmax_exp,
    subtract_on_slice [[1; 0; -1; 2; 0; 1; -2; 0]] 0 5 7 10000000000 = Some edited /\
    rect 1 8 edited /\
    efficient_softmax_exp (lift edited) = Ok (lift softmax_exp) /\
    forall j, (j < 8)%nat -> (5 <= j < 7)%nat ->
      at2 edited 0 j = at2 [[1; 0; -1; 2; 0; 1; -2; 0]] 0 j - 10000000000 /\
      exp (at2 edited 0 j - list_max (nth 0 edited [])) < 1 / 100000 /\
      at2 softmax_exp 0 j = 1 / 100000.
Proof.
  apply (large_range_edit_is_clamped 1 8 [[1; 0; -1; 2; 0; 1; -2; 0]] 0 5 7
           10000000000 3).
  - solve_rect.
  - lia.
  - exact large_range_edit_example_bound.
  - exact large_range_edit_example_outside.
  - lra.
Defined.

(** ** One row of [emit_probs] for the whole batch *)

Lemma lift_repeat_row (b : nat) (row : list R) :
  lift (repeat row b) = tab2 b (length row) (fun _ j => Fin (nth j row 0)).
Proof.
  unfold lift, map2d, tab2. rewrite repeat_tab, map_tab. apply tab_ext.
  intros i _. rewrite (list_as_tab 0 row) at 1. now rewrite map_tab.
Qed.

Lemma bdim_same (n : nat) : bdim n n = n.
Proof. unfold bdim. now destruct (n =? 1)%nat. Qed.

Lemma bidx_inside (n i : nat) : (i < n)%nat -> bidx n i = i.
Proof. intros Hi. unfold bidx. destruct (Nat.eqb_spec n 1); lia. Qed.

Lemma broadcast2_shared_row (f : xreal -> xreal -> xreal) (b t : nat)
    (g : nat -> xreal) (h : nat -> nat -> xreal) :
  (1 <= b)%nat ->
  broadcast2 f (tab2 1 t (fun _ j => g j)) (tab2 b t h) =
  broadcast2 f (tab2 b t (fun _ j => g j)) (tab2 b t h).
Proof.
  intros Hb. rewrite broadcast2_same.
  rewrite broadcast2_broadcast;
    [|lia|assumption|apply dims_agree_iff; lia|apply dims_agree_refl].
  change (bdim 1 b) with b. rewrite bdim_same. f_equal.
  apply tab2_ext. intros i j Hi Hj. now rewrite !bidx_inside by assumption.
Qed.

Lemma broadcast3_shared_row (f : xreal -> xreal -> xreal) (b t c : nat)
    (g : nat -> nat -> xreal) (h : nat -> nat -> nat -> xreal) :
  (1 <= b)%nat -> (1 <= t)%nat ->
  broadcast3 f (tab3 1 t c (fun _ j s => g j s)) (tab3 b t c h) =
  broadcast3 f (tab3 b t c (fun _ j s => g j s)) (tab3 b t c h).
Proof.
  intros Hb Ht. rewrite broadcast3_same.
  rewrite broadcast3_broadcast;
    [|lia|assumption|assumption|assumption|apply dims_agree_iff; lia
     |apply dims_agree_refl].
  change (bdim 1 b) with b. rewrite bdim_same. f_equal.
  apply tab_ext. intros i Hi. apply tab_ext. intros j Hj. apply tab_ext.
  intros s _. now rewrite !bidx_inside by assumption.
Qed.

(** X16.  [emit_probs] with a single row is shared by the whole batch: for a
    row of [t >= 1] entries and logits of shape (b, t) with [b >= 1], each
    attention function gives on the one-row array what it gives on the array
    that repeats the row [b] times. *)
Theorem single_row_emit_probs_is_shared (b : nat) (row : list R)
    (softmax_logits : list (list R)) (chunk_size : Z) :
  rect b (length row) softmax_logits -> (1 <= b)%nat -> (1 <= length row)%nat ->
  efficient_chunkwise_attention chunk_size (lift [row]) (lift softmax_logits) =
    efficient_chunkwise_attention chunk_size (lift (repeat row b))
      (lift softmax_logits) /\
  stable_chunkwise_attention chunk_size (lift [row]) (lift softmax_logits) =
    stable_chunkwise_attention chunk_size (lift (repeat row b))
      (lift softmax_logits).
Proof.
  intros Hu Hb Ht.
  destruct (Z_le_gt_dec chunk_size 0) as [Hw|Hw].
  - now rewrite !efficient_nonpositive, !stable_nonpositive.
  - assert (Hw' : (1 <= chunk_size)%Z) by lia.
    change [row] with (repeat row 1). rewrite !lift_repeat_row.
    rewrite (lift_rect b (length row) softmax_logits Hu). split.
    + unfold efficient_chunkwise_attention.
      rewrite efficient_softmax_exp_real. cbn [bind].
      rewrite moving_sum_real by lia. cbn [bind].
      now rewrite (broadcast2_shared_row xdiv b (length row)
                     (fun j => Fin (nth j row 0))).
    + rewrite !stable_logits_part by assumption.
      rewrite !frame_pad_end_tab2 by assumption.
      now rewrite (broadcast3_shared_row xmul b (length row) (Z.to_nat chunk_size)
                     (fun j s => clip (length row) zero (fun k => Fin (nth k row 0))
                                      (Z.of_nat j + Z.of_nat s))).
Qed.

Lemma single_row_emit_probs_is_shared_witness :
  efficient_chunkwise_attention 2 (lift [[1 / 4; 3 / 4]]) (lift [[2; -3]; [0; 1]]) =
    efficient_chunkwise_attention 2 (lift (repeat [1 / 4; 3 / 4] 2))
      (lift [[2; -3]; [0; 1]]) /\
  stable_chunkwise_attention 2 (lift [[1 / 4; 3 / 4]]) (lift [[2; -3]; [0; 1]]) =
    stable_chunkwise_attention 2 (lift (repeat [1 / 4; 3 / 4] 2))
      (lift [[2; -3]; [0; 1]]).
Proof.
  apply (single_row_emit_probs_is_shared 2 [1 / 4; 3 / 4] [[2; -3]; [0; 1]] 2).
  - solve_rect.
  - lia.
  - simpl; lia.
Defined.

(** ** Moving sums of arrays without negative entries *)

Lemma Rsum_tab_le (n : nat) (f g : nat -> R) :
  (forall k, (k < n)%nat -> f k <= g k) -> Rsum (tab n f) <= Rsum (tab n g).
Proof.
  intros H. unfold tab. apply Rsum_map_le. intros k Hk. apply in_seq in Hk.
  apply H. lia.
Qed.

Lemma Zsum_clip_grows (t : nat) (g : nat -> R) (lo hi lo' hi' : Z) :
  (forall k, (k < t)%nat -> 0 <= g k) -> (lo' <= lo)%Z -> (hi <= hi')%Z ->
  Zsum lo hi (clip t 0 g) <= Zsum lo' hi' (clip t 0 g).
Proof.
  intros Hg Hlo Hhi. rewrite !Zsum_clip_row. apply Rsum_tab_le. intros k Hk.
  pose proof (Hg k Hk).
  destruct (Z.leb_spec lo (Z.of_nat k)), (Z.leb_spec (Z.of_nat k) hi),
    (Z.leb_spec lo' (Z.of_nat k)), (Z.leb_spec (Z.of_nat k) hi'); cbn [andb];
    try lra; lia.
Qed.

Lemma Zsum_clip_whole_row (t : nat) (g : nat -> R) (lo hi : Z) :
  (lo <= 0)%Z -> (Z.of_nat t - 1 <= hi)%Z ->
  Zsum lo hi (clip t 0 g) = Rsum (tab t g).
Proof.
  intros Hlo Hhi. rewrite Zsum_clip_row. apply Rsum_tab_ext. intros k Hk.
  destruct (Z.leb_spec lo (Z.of_nat k)), (Z.leb_spec (Z.of_nat k) hi);
    cbn [andb]; try reflexivity; lia.
Qed.

(** X17.  On a real array without negative entries the moving sum grows with
    the window, from the array itself up to the row totals: for
    [0 <= back <= back'] and [0 <= forward <= forward'], entry by entry,
    [x <= moving_sum x back forward <= moving_sum x back' forward' <= sum of
    the row], the last with equality once [back'] and [forward'] are at
    least [T - 1]. *)
Theorem moving_sum_grows_with_window (b t : nat) (x : list (list R))
    (back forward back' forward' : Z) :
  rect b t x ->
  (forall i j, (i < b)%nat -> (j < t)%nat -> 0 <= at2 x i j) ->
  (0 <= back <= back')%Z -> (0 <= forward <= forward')%Z ->
  exists y y',
    moving_sum (lift x) back forward = Ok (lift y) /\
    moving_sum (lift x) back' forward' = Ok (lift y') /\
    forall i j, (i < b)%nat -> (j < t)%nat ->
      at2 x i j <= at2 y i j /\
      at2 y i j <= at2 y' i j /\
      at2 y' i j <= Rsum (nth i x []) /\
      ((Z.of_nat t - 1 <= back')%Z -> (Z.of_nat t - 1 <= forward')%Z ->
       at2 y' i j = Rsum (nth i x [])).
Proof.
  intros Hx Hnn Hb Hf. eexists. eexists.
  split; [apply (moving_sum_lift b t); (assumption || lia)|].
  split; [apply (moving_sum_lift b t); (assumption || lia)|].
  intros i j Hi Hj. rewrite !at2_tab2 by assumption.
  assert (Hg : forall k, (k < t)%nat -> 0 <= at2 x i k)
    by (intros k Hk; now apply Hnn).
  rewrite <- (tab_at2_row b t x i Hx Hi). repeat split.
  - rewrite <- (clip_inside t 0 (at2 x i) j Hj) at 1.
    apply Zsum_ge_term; [|lia]. intros z _. now apply clip_nonneg.
  - apply Zsum_clip_grows; (assumption || lia).
  - now apply Zsum_clip_le_row.
  - intros Hb' Hf'. apply Zsum_clip_whole_row; lia.
Qed.

Lemma moving_sum_grows_example (i j : nat) :
  (i < 1)%nat -> (j < 3)%nat -> 0 <= at2 [[1; 2; 5]] i j.
Proof.
  intros Hi Hj. destruct i as [|i]; [|lia].
  destruct j as [|[|[|j]]]; [| | |lia]; unfold at2; cbn [nth]; lra.
Qed.

Lemma moving_sum_grows_with_window_witness :
  exists y y',
    moving_sum (lift [[1; 2; 5]]) 1 0 = Ok (lift y) /\
    moving_sum (lift [[1; 2; 5]]) 2 2 = Ok (lift y') /\
    forall i j, (i < 1)%nat -> (j < 3)%nat ->
      at2 [[1; 2; 5]] i j <= at2 y i j /\
      at2 y i j <= at2 y' i j /\
      at2 y' i j <= Rsum (nth i [[1; 2; 5]] []) /\
      ((Z.of_nat 3 - 1 <= 2)%Z -> (Z.of_nat 3 - 1 <= 2)%Z ->
       at2 y' i j = Rsum (nth i [[1; 2; 5]] [])).
Proof.
  apply (moving_sum_grows_with_window 1 3 [[1; 2; 5]] 1 0 2 2).
  - solve_rect.
  - exact moving_sum_grows_example.
  - lia.
  - lia.
Defined.
